(** * TransportRetry: the retry decorator of src/openapi/transport/retry.js

    A shallow embedding of [TransportRetry] and of the part of its host it
    talks to (the wrapped transport, promise reactions, [setTimeout]),
    followed by the properties of the retry engine. *)

From stdpp Require Import base option list gmap strings.
From Stdlib Require Import ZArith Lia.

Local Open Scope string_scope.
Local Open Scope list_scope.
Local Set Warnings "-register-all".

(** ** JavaScript values *)

Module JS.

(** The values a transport resolves or rejects with, and the values passed
    as call arguments.  Numbers are the integer-valued ones plus [NaN]. *)
Inductive value :=
| Undefined
| Null
| Bool (b : bool)
| Num (n : Z)
| NaN
| Str (s : string)
| Obj (props : list (string * value)).

(** ToBoolean. *)
Definition truthy (v : value) : bool :=
  match v with
  | Undefined | Null | NaN => false
  | Bool b => b
  | Num n => negb (n =? 0)%Z
  | Str s => negb (String.eqb s "")
  | Obj _ => true
  end.

Fixpoint own (props : list (string * value)) (k : string) : option value :=
  match props with
  | [] => None
  | (k', v) :: rest => if String.eqb k' k then Some v else own rest k
  end.

(** [v.k] for a [v] that is neither [undefined] nor [null]: an own
    property of an object, [undefined] for a missing one and for the
    properties of a primitive. *)
Definition get (v : value) (k : string) : value :=
  match v with
  | Obj props => default Undefined (own props k)
  | _ => Undefined
  end.

(** [a && a.k]: the left operand when it is falsy, [a.k] otherwise. *)
Definition and_get (a : value) (k : string) : value :=
  if truthy a then get a k else a.

Inductive exception :=
| Error (msg : string)
| TypeError (msg : string).

End JS.

Import JS.

(** ** Data *)

(** [options.methods[verb]]: [{ retryLimit: n }]. *)
Record MethodOptions := { retryLimit : Z }.

(** The optional second argument of the constructor; an absent property is
    [None]. *)
Record Options := {
  opt_retryTimeout : option Z;
  opt_methods : option (gmap string MethodOptions)
}.

(** The [transportCall] object literal of [transportMethod].  Its [resolve]
    and [reject] fields are the two functions of the promise created around
    it; there is one promise per object, so both are identified with the
    object's address in the heap and left out of the record. *)
Record TransportCall := {
  method : string;
  args : list value;
  retryCount : Z
}.

(** One call of [transport[method].apply(transport, args)].  [inv_call] is
    specification-only: the address of the [transportCall] that
    [sendTransportCall] was sending, [None] for a direct call.  No operation
    reads it. *)
Record Invocation := {
  inv_method : string;
  inv_args : list value;
  inv_call : option nat
}.

(** The wrapped transport, as far as the decorator can observe it: the
    calls of its verbs, in order, and the number of calls of [dispose].  The
    promise returned by the [n]-th verb call is promise [n]. *)
Record Transport := {
  invocations : list Invocation;
  disposals : nat
}.

(** The fields of a [TransportRetry] object.  [failedCalls] holds addresses
    of [transportCall] objects; [retryTimer] is [null] or the handle
    returned by [setTimeout]. *)
Record TransportRetryObject := {
  retryTimeout : Z;
  methods : gmap string MethodOptions;
  transport : Transport;
  failedCalls : list nat;
  retryTimer : option positive
}.

(** How a promise of the wrapped transport settles. *)
Inductive Settlement :=
| Fulfilled (v : value)
| Rejected (r : value).

(** What a continuation of the caller is applied to: a value of the wrapped
    transport, or a [transportCall] object (by address). *)
Inductive Argument :=
| Descriptor (v : value)
| CallObject (ref : nat).

(** A call of [transportCall.resolve] or [transportCall.reject]. *)
Inductive Continuation :=
| Resolve (v : value)
| Reject (a : Argument).

(** The object together with the host state it acts on:
    - [heap]: the [transportCall] objects, by address;
    - [reactions]: the [then] handlers registered by [sendTransportCall],
      promise of the wrapped transport to the [transportCall] they close over;
    - [timers]: the pending timeouts (handle, delay); every one of them was
      set by [addFailedCall] and runs [retryFailedCalls];
    - [next_timer]: the next handle of [setTimeout]; handles are integers
      greater than zero, hence truthy;
    - [settled]: the calls of callers' continuations, oldest first. *)
Record World := {
  this : TransportRetryObject;
  heap : list TransportCall;
  reactions : gmap nat nat;
  timers : list (positive * Z);
  next_timer : positive;
  settled : list (nat * Continuation)
}.

(** What a verb method of [TransportRetry] returns: the promise it created
    around a [transportCall], or the promise the wrapped transport
    returned. *)
Inductive Returned :=
| NewPromise (ref : nat)
| TransportPromise (pid : nat).

(** *** Field updates *)

Definition with_transport (t : Transport) (o : TransportRetryObject) :=
  {| retryTimeout := retryTimeout o; methods := methods o; transport := t;
     failedCalls := failedCalls o; retryTimer := retryTimer o |}.

Definition with_failedCalls (q : list nat) (o : TransportRetryObject) :=
  {| retryTimeout := retryTimeout o; methods := methods o;
     transport := transport o; failedCalls := q; retryTimer := retryTimer o |}.

Definition with_retryTimer (t : option positive) (o : TransportRetryObject) :=
  {| retryTimeout := retryTimeout o; methods := methods o;
     transport := transport o; failedCalls := failedCalls o; retryTimer := t |}.

Definition with_this (o : TransportRetryObject) (w : World) :=
  {| this := o; heap := heap w; reactions := reactions w; timers := timers w;
     next_timer := next_timer w; settled := settled w |}.

Definition with_heap (h : list TransportCall) (w : World) :=
  {| this := this w; heap := h; reactions := reactions w; timers := timers w;
     next_timer := next_timer w; settled := settled w |}.

Definition with_reactions (r : gmap nat nat) (w : World) :=
  {| this := this w; heap := heap w; reactions := r; timers := timers w;
     next_timer := next_timer w; settled := settled w |}.

Definition with_timers (ts : list (positive * Z)) (n : positive) (w : World) :=
  {| this := this w; heap := heap w; reactions := reactions w; timers := ts;
     next_timer := n; settled := settled w |}.

Definition with_settled (l : list (nat * Continuation)) (w : World) :=
  {| this := this w; heap := heap w; reactions := reactions w;
     timers := timers w; next_timer := next_timer w; settled := l |}.

(** ** The host *)

(** [this.transport[m].apply(this.transport, a)]: the wrapped transport
    records the call and returns a new promise. *)
Definition invoke (m : string) (a : list value) (by_call : option nat)
    (w : World) : nat * World :=
  let t := transport (this w) in
  (length (invocations t),
   with_this
     (with_transport
        {| invocations := invocations t ++
             [{| inv_method := m; inv_args := a; inv_call := by_call |}];
           disposals := disposals t |}
        (this w))
     w).

(** [setTimeout(() => this.retryFailedCalls(), delay)]. *)
Definition setTimeout (delay : Z) (w : World) : positive * World :=
  (next_timer w,
   with_timers (timers w ++ [(next_timer w, delay)]) (Pos.succ (next_timer w)) w).

Definition pending (h : positive) (w : World) : bool :=
  bool_decide (h ∈ (timers w).*1).

(** The host drops a timeout when it expires. *)
Definition expired (h : positive) (w : World) : World :=
  with_timers (filter (λ t, t.1 ≠ h) (timers w)) (next_timer w) w.

(** The call of a continuation of the promise around [ref]. *)
Definition fire (ref : nat) (c : Continuation) (w : World) : World :=
  with_settled (settled w ++ [(ref, c)]) w.

(** ** The retry engine *)

(** [this.methods[method] && this.methods[method].retryLimit > 0] *)
Definition managed (o : TransportRetryObject) (m : string) : bool :=
  match methods o !! m with
  | Some p => (0 <? retryLimit p)%Z
  | None => false
  end.

(** [TransportRetry.prototype.sendTransportCall]: call the wrapped
    transport and register [then(transportCall.resolve, onRejected)] on the
    promise it returns. *)
Definition sendTransportCall (ref : nat) (w : World) : World :=
  match heap w !! ref with
  | None => w
  | Some c =>
      let '(pid, w1) := invoke (method c) (args c) (Some ref) w in
      with_reactions (<[pid := ref]> (reactions w1)) w1
  end.

(** [TransportRetry.prototype.addFailedCall] *)
Definition addFailedCall (ref : nat) (w : World) : World :=
  match heap w !! ref with
  | None => w
  | Some c =>
      let w1 :=
        with_heap
          (<[ref := {| method := method c; args := args c;
                       retryCount := retryCount c + 1 |}]> (heap w)) w in
      let w2 :=
        with_this (with_failedCalls (failedCalls (this w1) ++ [ref]) (this w1)) w1 in
      match retryTimer (this w2) with
      | Some _ => w2
      | None =>
          let '(h, w3) := setTimeout (retryTimeout (this w2)) w2 in
          with_this (with_retryTimer (Some h) (this w3)) w3
      end
  end.

(** [!(response && response.status)] *)
Definition no_status (response : value) : bool :=
  negb (truthy (and_get response "status")).

(** The rejection handler of [sendTransportCall],
    [(response) => { ... }].  It is an arrow function, so [arguments] in its
    body is the [arguments] of the enclosing [sendTransportCall], the
    one-element list holding [transportCall]:
    [transportCall.reject.apply(null, arguments)] applies [reject] to the
    [transportCall] object.  When [this.methods[transportCall.method]] is
    [undefined] reading [retryLimit] throws inside the handler, which only
    rejects the promise [then] returned; nobody holds that promise. *)
Definition onRejected (ref : nat) (response : value) (w : World) : World :=
  match heap w !! ref with
  | None => w
  | Some c =>
      if no_status response then
        match methods (this w) !! method c with
        | None => w
        | Some p =>
            if (retryCount c <? retryLimit p)%Z
            then addFailedCall ref w
            else fire ref (Reject (CallObject ref)) w
        end
      else fire ref (Reject (CallObject ref)) w
  end.

(** The loop of [retryFailedCalls],
    [while (this.failedCalls.length > 0) this.sendTransportCall(this.failedCalls.shift())],
    for at most [fuel] iterations. *)
Fixpoint retry_loop (fuel : nat) (w : World) : World :=
  match fuel with
  | O => w
  | S fuel' =>
      match failedCalls (this w) with
      | [] => w
      | ref :: rest =>
          retry_loop fuel'
            (sendTransportCall ref (with_this (with_failedCalls rest (this w)) w))
      end
  end.

(** [TransportRetry.prototype.retryFailedCalls].  Every iteration removes one
    element and [sendTransportCall] adds none, so the length of the queue is
    enough fuel (see [retryFailedCalls_drains]). *)
Definition retryFailedCalls (w : World) : World :=
  let w1 := with_this (with_retryTimer None (this w)) w in
  retry_loop (length (failedCalls (this w1))) w1.

(** [TransportRetry.prototype.dispose].  [this.retryTimer] is the handle
    [setTimeout] returned, a number in a browser and a [Timeout] object in
    Node; neither has a [clear] method, so [this.retryTimer.clear()] throws a
    [TypeError] and the statements after it do not run. *)
Definition dispose (w : World) : option exception * World :=
  let w1 := with_this (with_failedCalls [] (this w)) w in
  match retryTimer (this w1) with
  | Some _ => (Some (TypeError "this.retryTimer.clear is not a function"), w1)
  | None =>
      let t := transport (this w1) in
      (None,
       with_this
         (with_transport
            {| invocations := invocations t; disposals := S (disposals t) |}
            (this w1))
         w1)
  end.

(** The function [transportMethod(method)] returns, applied to [a]. *)
Definition transportMethod (m : string) (a : list value) (w : World)
    : Returned * World :=
  if managed (this w) m then
    let ref := length (heap w) in
    let w1 :=
      with_heap (heap w ++ [{| method := m; args := a; retryCount := 0 |}]) w in
    (NewPromise ref, sendTransportCall ref w1)
  else
    let '(pid, w1) := invoke m a None w in
    (TransportPromise pid, w1).

(** The constructor. *)
Definition TransportRetry (transport : option Transport) (options : option Options)
    : exception + TransportRetryObject :=
  match transport with
  | None => inl (Error "Missing required parameter: transport in TransportRetry")
  | Some t =>
      inr {| retryTimeout :=
               match options ≫= opt_retryTimeout with
               | Some n => if (0 <? n)%Z then n else 0%Z
               | None => 0%Z
               end;
             methods := default ∅ (options ≫= opt_methods);
             transport := t;
             failedCalls := [];
             retryTimer := None |}
  end.

(** The verb methods on the prototype. *)
Module Prototype.
Definition get := transportMethod "get".
Definition post := transportMethod "post".
Definition put := transportMethod "put".
Definition delete := transportMethod "delete".
Definition patch := transportMethod "patch".
Definition head := transportMethod "head".
Definition options := transportMethod "options".
End Prototype.

(** ** Runs *)

(** A host with a freshly constructed object and nothing else going on. *)
Definition boot (o : TransportRetryObject) : World :=
  {| this := o; heap := []; reactions := ∅; timers := []; next_timer := 1;
     settled := [] |}.

(** What can happen to the object: a caller calls a verb or [dispose], a
    promise of the wrapped transport settles, a timeout expires. *)
Inductive event :=
| Call (m : string) (a : list value)
| Settle (pid : nat) (s : Settlement)
| Expire (h : positive)
| Dispose.

(** A promise settles once and runs each reaction once: the reaction is
    removed when it runs.  A promise without a reaction here was returned to
    the caller directly. *)
Definition settles (pid : nat) (s : Settlement) (w : World) : World :=
  match reactions w !! pid with
  | None => w
  | Some ref =>
      let w1 := with_reactions (base.delete pid (reactions w)) w in
      match s with
      | Fulfilled v => fire ref (Resolve v) w1
      | Rejected r => onRejected ref r w1
      end
  end.

(** A pending timeout expires and runs its callback. *)
Definition expires (h : positive) (w : World) : World :=
  if pending h w then retryFailedCalls (expired h w) else w.

Definition step (w : World) (e : event) : World :=
  match e with
  | Call m a => (transportMethod m a w).2
  | Settle pid s => settles pid s w
  | Expire h => expires h w
  | Dispose => (dispose w).2
  end.

Definition run (w : World) (es : list event) : World := foldl step w es.

Inductive reachable : World → Prop :=
| reachable_boot t options o :
    TransportRetry (Some t) options = inr o → reachable (boot o)
| reachable_step w e : reachable w → reachable (step w e).

(** ** Vocabulary of the properties *)

(** A [transportCall] is in flight while a reaction on a promise of the
    wrapped transport closes over it, and queued while [failedCalls] holds
    it. *)
Definition in_flight (w : World) (ref : nat) : Prop :=
  ∃ pid, reactions w !! pid = Some ref.

Definition queued (w : World) (ref : nat) : Prop :=
  ref ∈ failedCalls (this w).

Definition live (w : World) (ref : nat) : Prop :=
  in_flight w ref ∨ queued w ref.

(** An allocated [transportCall] that nothing refers to any more: it was
    resolved, rejected, or dropped by [dispose]. *)
Definition detached (w : World) (ref : nat) : Prop :=
  ref < length (heap w) ∧ ¬ live w ref.

(** The calls of the wrapped transport made for [ref], the calls of the
    continuations of [ref], and the object itself. *)
Definition calls_of (ref : nat) (w : World) : list Invocation :=
  filter (λ i, inv_call i = Some ref) (invocations (transport (this w))).

Definition continuations_of (ref : nat) (w : World) : list Continuation :=
  (filter (λ x, x.1 = ref) (settled w)).*2.

Definition history (ref : nat) (w : World)
    : list Invocation * list Continuation * option TransportCall :=
  (calls_of ref w, continuations_of ref w, heap w !! ref).

(** What [sendTransportCall] calls the wrapped transport with. *)
Definition invocation_of (ref : nat) (c : TransportCall) : Invocation :=
  {| inv_method := method c; inv_args := args c; inv_call := Some ref |}.

(** The object after [transportCall.retryCount++]. *)
Definition retried (c : TransportCall) : TransportCall :=
  {| method := method c; args := args c; retryCount := retryCount c + 1 |}.

(** The calls of the wrapped transport made by a drain of the queue [q]:
    one per queued call, oldest first. *)
Inductive drained (hp : list TransportCall) : list nat → list Invocation → Prop :=
| drained_nil : drained hp [] []
| drained_cons ref c q l :
    hp !! ref = Some c → drained hp q l →
    drained hp (ref :: q) (invocation_of ref c :: l).

(** A failure descriptor of an HTTP response: its [status] is a status
    code. *)
Definition carries_http_status (r : value) : Prop :=
  ∃ code, (100 ≤ code ≤ 599)%Z ∧ get r "status" = Num code.

(** A failure descriptor without a [status]. *)
Definition lacks_status (r : value) : Prop :=
  match r with
  | Obj props => own props "status" = None
  | _ => True
  end.

(** No descriptor at all, or a descriptor whose [status] is there and
    falsy. *)
Definition falsy_status (r : value) : Prop :=
  r = Undefined ∨ r = Null ∨
  ∃ props v, r = Obj props ∧ own props "status" = Some v ∧ truthy v = false.

(** The events of a call that keeps failing: promise [pid] rejects with
    the first descriptor, the timeout [h] started for the retry expires, the
    promise of the retry rejects with the next descriptor, and so on up to
    the last descriptor. *)
Fixpoint failures (pid : nat) (h : positive) (rs : list value) : list event :=
  match rs with
  | [] => []
  | r :: rs' =>
      Settle pid (Rejected r) ::
      match rs' with
      | [] => []
      | _ :: _ => Expire h :: failures (S pid) (Pos.succ h) rs'
      end
  end.

(** What holds of every state the object can be in. *)
Record Inv (w : World) : Prop := {
  inv_reaction_bounds : ∀ pid ref, reactions w !! pid = Some ref →
    pid < length (invocations (transport (this w))) ∧ ref < length (heap w);
  inv_reaction_inj : ∀ p1 p2 ref,
    reactions w !! p1 = Some ref → reactions w !! p2 = Some ref → p1 = p2;
  inv_reaction_queue : ∀ pid ref, reactions w !! pid = Some ref →
    ref ∉ failedCalls (this w);
  inv_queue_nodup : NoDup (failedCalls (this w));
  inv_queue_bounds : ∀ ref, ref ∈ failedCalls (this w) → ref < length (heap w);
  inv_settled_bounds : ∀ ref, ref ∈ (settled w).*1 → ref < length (heap w);
  inv_settled_dead : ∀ ref, ref ∈ (settled w).*1 → ¬ live w ref;
  inv_settled_nodup : NoDup (settled w).*1;
  inv_budget : ∀ ref c, heap w !! ref = Some c →
    ∃ p, methods (this w) !! method c = Some p ∧
         (0 ≤ retryCount c ≤ retryLimit p)%Z;
  inv_timer : (timers w).*1 = option_list (retryTimer (this w));
  inv_timer_old : ∀ h, retryTimer (this w) = Some h → (h < next_timer w)%positive
}.

(** *** The configuration of the specification's scenarios

    [new TransportRetry(transport, {retryTimeout: 100, methods: {delete: {retryLimit: 2}}})]
    over a transport that has not been called yet. *)
Definition example_transport : Transport :=
  {| invocations := []; disposals := 0 |}.

Definition example_options : Options :=
  {| opt_retryTimeout := Some 100%Z;
     opt_methods := Some {[ "delete" := {| retryLimit := 2 |} ]} |}.

Definition example_object : TransportRetryObject :=
  {| retryTimeout := 100;
     methods := {[ "delete" := {| retryLimit := 2 |} ]};
     transport := example_transport;
     failedCalls := [];
     retryTimer := None |}.

Definition status_500 : value := Obj [("status", Num 500)].

(** *** Vocabulary of the further properties *)

(** The number of calls of the wrapped transport made for [ref]. *)
Definition attempts (ref : nat) (w : World) : Z :=
  Z.of_nat (length (calls_of ref w)).

(** How the calls of the wrapped transport relate to [retryCount]. *)
Record Counted (w : World) : Prop := {
  counted_unallocated : ∀ ref : nat,
    (length (heap w) ≤ ref)%nat → calls_of ref w = [];
  counted_range : ∀ ref c, heap w !! ref = Some c →
    (1 ≤ attempts ref w)%Z ∧
    (retryCount c ≤ attempts ref w ≤ retryCount c + 1)%Z;
  counted_queued : ∀ ref c, heap w !! ref = Some c → queued w ref →
    attempts ref w = retryCount c;
  counted_in_flight : ∀ ref c, heap w !! ref = Some c → in_flight w ref →
    attempts ref w = (retryCount c + 1)%Z;
  counted_same : ∀ ref c i, heap w !! ref = Some c → i ∈ calls_of ref w →
    i = invocation_of ref c
}.

(** A failure descriptor that is an object with a truthy [status]. *)
Definition truthy_status (r : value) : Prop :=
  ∃ props v, r = Obj props ∧ own props "status" = Some v ∧ truthy v = true.

(** The events of a call that fails and is sent again, once per
    descriptor: promise [pid] rejects, the timeout [h] expires, and so on. *)
Fixpoint rounds (pid : nat) (h : positive) (rs : list value) : list event :=
  match rs with
  | [] => []
  | r :: rs' =>
      Settle pid (Rejected r) :: Expire h :: rounds (S pid) (Pos.succ h) rs'
  end.

(** * Proofs *)

(** ** Tactics *)

Ltac destruct_world w :=
  let rt := fresh "rt" in let ms := fresh "ms" in let log := fresh "log" in
  let nd := fresh "nd" in let q := fresh "q" in let tm := fresh "tm" in
  let hp := fresh "hp" in let rs := fresh "rs" in let ts := fresh "ts" in
  let nt := fresh "nt" in let st := fresh "st" in
  destruct w as [[rt ms [log nd] q tm] hp rs ts nt st];
  cbv [with_this with_heap with_reactions with_timers with_settled
       with_transport with_failedCalls with_retryTimer fire invoke
       setTimeout] in *;
  simpl in *.

(** ** The invariant *)

(** The invariant holds after construction and is kept by every
    operation. *)
Lemma Inv_boot t options o :
  TransportRetry (Some t) options = inr o → Inv (boot o).
Proof.
  intros H. injection H as <-. unfold live, in_flight, queued.
  split; simpl; try (intros; simplify_map_eq; fail); try set_solver; try constructor.
  all: intros; try set_solver.
Qed.

Lemma Inv_sendTransportCall ref w :
  Inv w → ref < length (heap w) → ¬ live w ref → ref ∉ (settled w).*1 →
  Inv (sendTransportCall ref w).
Proof.
  intros [] Hlt Hdead Hns. unfold sendTransportCall.
  destruct (heap w !! ref) as [c|] eqn:Hc; [|by split].
  unfold live, in_flight, queued in *.
  destruct_world w.
  split; simpl; unfold live, in_flight, queued; simpl; try done.
  - intros pid r. rewrite length_app. simpl. rewrite lookup_insert.
    case_decide; intros; simplify_eq; [lia|].
    edestruct inv_reaction_bounds0; eauto. lia.
  - intros p1 p2 r. rewrite !lookup_insert.
    repeat case_decide; intros; simplify_eq; try done;
      try (exfalso; eauto; fail); eauto.
  - intros pid r. rewrite lookup_insert.
    case_decide; intros; simplify_eq; eauto.
  - intros r Hr [[pid Hp]|Hq].
    + rewrite lookup_insert in Hp. case_decide; simplify_eq; [done|].
      eapply inv_settled_dead0; eauto.
    + eapply inv_settled_dead0; eauto.
Qed.

Lemma Inv_shift ref rest w :
  Inv w → failedCalls (this w) = ref :: rest →
  let w' := with_this (with_failedCalls rest (this w)) w in
  Inv w' ∧ ref < length (heap w') ∧ ¬ live w' ref ∧ ref ∉ (settled w').*1.
Proof.
  intros [] Hq. cbv zeta. unfold live, in_flight, queued in *.
  destruct_world w. subst q.
  apply NoDup_cons in inv_queue_nodup0 as [Hnin Hnd].
  split_and!;
    [split; simpl; unfold live, in_flight, queued; simpl; try done| | |].
  - intros pid r Hr Hin. eapply inv_reaction_queue0; eauto. by right.
  - intros r Hin. apply inv_queue_bounds0. by right.
  - intros r Hin [?|?]; eapply inv_settled_dead0; eauto. right. by right.
  - apply inv_queue_bounds0. by left.
  - intros [[pid Hp]|?]; [|done]. eapply inv_reaction_queue0; eauto. by left.
  - intros Hin. eapply inv_settled_dead0; eauto. right. by left.
Qed.

(** The loop rule of [retry_loop]. *)
Lemma retry_loop_ind (P : World → Prop) :
  (∀ w ref rest, failedCalls (this w) = ref :: rest → P w →
     P (sendTransportCall ref (with_this (with_failedCalls rest (this w)) w))) →
  ∀ fuel w, P w → P (retry_loop fuel w).
Proof.
  intros Hbody fuel. induction fuel as [|fuel IH]; intros w Hw; simpl; [done|].
  destruct (failedCalls (this w)) as [|ref rest] eqn:Hq; [done|].
  apply IH. by apply Hbody.
Qed.

Lemma Inv_retry_loop fuel w : Inv w → Inv (retry_loop fuel w).
Proof.
  apply retry_loop_ind. intros w' ref rest Hq Hinv.
  destruct (Inv_shift ref rest w' Hinv Hq) as (? & ? & ? & ?).
  by apply Inv_sendTransportCall.
Qed.

Lemma Inv_unreact pid ref w :
  Inv w → reactions w !! pid = Some ref →
  let w' := with_reactions (base.delete pid (reactions w)) w in
  Inv w' ∧ ref < length (heap w') ∧ ¬ live w' ref ∧ ref ∉ (settled w').*1.
Proof.
  intros [] Hp. cbv zeta. unfold live, in_flight, queued in *.
  destruct_world w.
  split_and!;
    [split; simpl; unfold live, in_flight, queued; simpl; try done| | |].
  - intros p r [_ Hr]%lookup_delete_Some. eauto.
  - intros p1 p2 r [_ H1]%lookup_delete_Some [_ H2]%lookup_delete_Some. eauto.
  - intros p r [_ Hr]%lookup_delete_Some. eauto.
  - intros r Hin [[p [_ Hr]%lookup_delete_Some]|?];
      eapply inv_settled_dead0; eauto.
  - by eapply inv_reaction_bounds0.
  - intros [[p [Hne Hr]%lookup_delete_Some]|?].
    + apply Hne. eauto.
    + by eapply inv_reaction_queue0.
  - intros Hin. eapply inv_settled_dead0; eauto.
Qed.

Lemma Inv_fire ref c w :
  Inv w → ref < length (heap w) → ¬ live w ref → ref ∉ (settled w).*1 →
  Inv (fire ref c w).
Proof.
  intros [] Hlt Hdead Hns. unfold live, in_flight, queued in *.
  destruct_world w.
  split; simpl; unfold live, in_flight, queued; simpl; try done.
  - intros r. rewrite fmap_app. intros [?|?%list_elem_of_singleton]%elem_of_app;
      simplify_eq/=; eauto.
  - intros r. rewrite fmap_app. intros [?|?%list_elem_of_singleton]%elem_of_app;
      simplify_eq/=; eauto.
  - rewrite fmap_app. apply NoDup_app. split_and!; [done| |apply NoDup_singleton].
    intros r Hr ?%list_elem_of_singleton. simplify_eq/=. done.
Qed.

Lemma Inv_addFailedCall ref w :
  Inv w → ¬ live w ref → ref ∉ (settled w).*1 →
  (∀ c p, heap w !! ref = Some c → methods (this w) !! method c = Some p →
          (retryCount c < retryLimit p)%Z) →
  Inv (addFailedCall ref w).
Proof.
  intros [] Hdead Hns Hbudget. unfold addFailedCall.
  destruct (heap w !! ref) as [c|] eqn:Hc; [|by split].
  assert (Hlt : ref < length (heap w)) by by eapply lookup_lt_Some.
  unfold live, in_flight, queued in *.
  destruct_world w.
  assert (Hinv : ∀ tm' ts' nt',
    ts'.*1 = option_list tm' → (∀ h, tm' = Some h → (h < nt')%positive) →
    Inv {| this := {| retryTimeout := rt; methods := ms;
                      transport := {| invocations := log; disposals := nd |};
                      failedCalls := q ++ [ref]; retryTimer := tm' |};
           heap := <[ref := {| method := method c; args := args c;
                               retryCount := retryCount c + 1 |}]> hp;
           reactions := rs; timers := ts'; next_timer := nt'; settled := st |}).
  { intros tm' ts' nt' Ht Hold.
    split; simpl; unfold live, in_flight, queued; simpl;
      rewrite ?length_insert; try done.
    - intros p r Hr [?|?%list_elem_of_singleton]%elem_of_app; simplify_eq; eauto.
      by eapply inv_reaction_queue0.
    - apply NoDup_app. split_and!; [done| |apply NoDup_singleton].
      intros r Hr ?%list_elem_of_singleton. simplify_eq. eauto.
    - intros r [?|?%list_elem_of_singleton]%elem_of_app; simplify_eq; eauto.
    - intros r Hr [?|[?|?%list_elem_of_singleton]%elem_of_app]; simplify_eq;
        try done; eapply inv_settled_dead0; eauto.
    - intros r c'. destruct (decide (r = ref)) as [->|Hne].
      + rewrite list_lookup_insert_eq by done. intros; simplify_eq/=.
        destruct (inv_budget0 _ _ Hc) as (p & Hp & ?).
        exists p. split; [done|]. specialize (Hbudget _ _ eq_refl Hp). lia.
      + rewrite list_lookup_insert_ne by done. eauto. }
  destruct tm as [h|]; simpl.
  - by apply Hinv.
  - apply Hinv; simpl.
    + destruct ts; [done|discriminate].
    + intros h [= <-]. lia.
Qed.

Lemma Inv_alloc m a p w :
  Inv w → methods (this w) !! m = Some p → (0 < retryLimit p)%Z →
  let w' :=
    with_heap (heap w ++ [{| method := m; args := a; retryCount := 0 |}]) w in
  Inv w' ∧ length (heap w) < length (heap w') ∧
  ¬ live w' (length (heap w)) ∧ length (heap w) ∉ (settled w').*1.
Proof.
  intros [] Hm Hp. cbv zeta. unfold live, in_flight, queued in *.
  destruct_world w.
  split_and!;
    [split; simpl; unfold live, in_flight, queued; simpl;
     rewrite ?length_app; simpl; try done| | |].
  - intros pid r Hr. edestruct inv_reaction_bounds0; eauto. lia.
  - intros r Hr. apply inv_queue_bounds0 in Hr. lia.
  - intros r Hr. apply inv_settled_bounds0 in Hr. lia.
  - intros r c [Hc|[_ Hc]]%lookup_app_Some; [eauto|].
    apply list_lookup_singleton_Some in Hc as [_ <-]. simpl.
    exists p. split; [done|lia].
  - rewrite length_app. simpl. lia.
  - intros [[pid Hr]|Hr].
    + apply inv_reaction_bounds0 in Hr. lia.
    + apply inv_queue_bounds0 in Hr. lia.
  - intros Hr. apply inv_settled_bounds0 in Hr. lia.
Qed.

Lemma Inv_invoke m a w : Inv w → Inv (invoke m a None w).2.
Proof.
  intros []. unfold live, in_flight, queued in *.
  destruct_world w.
  split; simpl; unfold live, in_flight, queued; simpl; try done.
  intros pid r Hr. rewrite length_app. simpl.
  edestruct inv_reaction_bounds0; eauto. lia.
Qed.

Lemma Inv_transportMethod m a w : Inv w → Inv (transportMethod m a w).2.
Proof.
  intros Hinv. unfold transportMethod, managed.
  destruct (methods (this w) !! m) as [p|] eqn:Hm; [|by apply Inv_invoke].
  destruct (0 <? retryLimit p)%Z eqn:Hp; [|by apply Inv_invoke].
  apply Z.ltb_lt in Hp. simpl.
  destruct (Inv_alloc m a p w Hinv Hm Hp) as (? & ? & ? & ?).
  by apply Inv_sendTransportCall.
Qed.

Lemma Inv_onRejected ref r w :
  Inv w → ref < length (heap w) → ¬ live w ref → ref ∉ (settled w).*1 →
  Inv (onRejected ref r w).
Proof.
  intros Hinv Hlt Hdead Hns. unfold onRejected.
  destruct (heap w !! ref) as [c|] eqn:Hc; [|done].
  destruct (no_status r); [|by apply Inv_fire].
  destruct (methods (this w) !! method c) as [p|] eqn:Hm; [|done].
  destruct (retryCount c <? retryLimit p)%Z eqn:Hb; [|by apply Inv_fire].
  apply Z.ltb_lt in Hb. apply Inv_addFailedCall; try done.
  intros c' p' ??. by simplify_eq.
Qed.

Lemma Inv_settles pid s w : Inv w → Inv (settles pid s w).
Proof.
  intros Hinv. unfold settles.
  destruct (reactions w !! pid) as [ref|] eqn:Hp; [|done].
  destruct (Inv_unreact pid ref w Hinv Hp) as (? & ? & ? & ?).
  destruct s; [by apply Inv_fire|by apply Inv_onRejected].
Qed.

Lemma Inv_expires h w : Inv w → Inv (expires h w).
Proof.
  intros Hinv. unfold expires, pending, retryFailedCalls.
  case_bool_decide as Hh; [|done].
  apply Inv_retry_loop.
  destruct Hinv. unfold live, in_flight, queued in *.
  destruct_world w.
  split; simpl; unfold live, in_flight, queued; simpl; try done.
  destruct tm as [h'|]; simpl in *; [|by rewrite inv_timer0 in Hh; set_solver].
  destruct ts as [|[h1 d] [|??]]; simplify_eq/=.
  apply list_elem_of_singleton in Hh as ->.
  rewrite filter_cons_False; [done|]. simpl. by intros [].
Qed.

Lemma Inv_dispose w : Inv w → Inv (dispose w).2.
Proof.
  intros []. unfold dispose, live, in_flight, queued in *.
  destruct_world w.
  destruct tm as [h|]; simpl;
    (split; simpl; unfold live, in_flight, queued; simpl; try done;
     [set_solver|constructor|set_solver|]);
    intros r Hr [?|?]; [|set_solver| |set_solver]; eapply inv_settled_dead0; eauto.
Qed.

Create HintDb retry.
#[local] Hint Resolve Inv_transportMethod Inv_settles Inv_expires Inv_dispose
  : retry.

Lemma Inv_step w e : Inv w → Inv (step w e).
Proof. destruct e; simpl; auto with retry. Qed.

Lemma Inv_run es w : Inv w → Inv (run w es).
Proof.
  revert w. induction es as [|e es IH]; intros w Hinv; simpl; [done|].
  apply IH. by apply Inv_step.
Qed.

Lemma reachable_Inv w : reachable w → Inv w.
Proof.
  induction 1 as [t options o Ho|w e _ IH];
    [by eapply Inv_boot|by apply Inv_step].
Qed.

Lemma reachable_run w es : reachable w → reachable (run w es).
Proof.
  revert w. induction es as [|e es IH]; intros w Hw; simpl; [done|].
  apply IH. by constructor.
Qed.

Lemma example_constructed :
  TransportRetry (Some example_transport) (Some example_options) =
  inr example_object.
Proof. vm_compute. reflexivity. Qed.

Lemma example_reachable es : reachable (run (boot example_object) es).
Proof.
  apply reachable_run. eapply reachable_boot, example_constructed.
Qed.

(** ** Calls that nothing refers to *)

Lemma sendTransportCall_eq ref c w :
  heap w !! ref = Some c →
  sendTransportCall ref w =
  {| this := with_transport
               {| invocations := invocations (transport (this w)) ++
                                   [invocation_of ref c];
                  disposals := disposals (transport (this w)) |} (this w);
     heap := heap w;
     reactions := <[length (invocations (transport (this w))) := ref]> (reactions w);
     timers := timers w; next_timer := next_timer w; settled := settled w |}.
Proof. intros Hc. unfold sendTransportCall. by rewrite Hc. Qed.

(** Operations on other calls leave a detached call detached and its
    history as it is. *)
Lemma detached_sendTransportCall r ref w :
  r ≠ ref → detached w ref →
  detached (sendTransportCall r w) ref ∧
  history ref (sendTransportCall r w) = history ref w.
Proof.
  intros Hne [Hlt Hdead].
  destruct (heap w !! r) as [c|] eqn:Hc;
    [|unfold sendTransportCall; by rewrite Hc].
  rewrite (sendTransportCall_eq _ _ _ Hc).
  unfold detached, history, calls_of, continuations_of, live, in_flight, queued in *.
  destruct_world w. split_and!; try done.
  - intros [[pid Hp]|?]; [|tauto].
    rewrite lookup_insert in Hp. case_decide; simplify_eq. eauto.
  - rewrite filter_app, filter_cons_False, filter_nil, app_nil_r; [done|].
    simpl. congruence.
Qed.

Lemma detached_fire r c ref w :
  r ≠ ref → detached w ref →
  detached (fire r c w) ref ∧ history ref (fire r c w) = history ref w.
Proof.
  intros Hne [Hlt Hdead].
  unfold detached, history, calls_of, continuations_of, live, in_flight, queued in *.
  destruct_world w. split_and!; try done.
  rewrite filter_app, filter_cons_False, filter_nil, app_nil_r; done.
Qed.

Lemma detached_addFailedCall r ref w :
  r ≠ ref → detached w ref →
  detached (addFailedCall r w) ref ∧ history ref (addFailedCall r w) = history ref w.
Proof.
  intros Hne [Hlt Hdead]. unfold addFailedCall.
  destruct (heap w !! r) as [c|] eqn:Hc; [|done].
  unfold detached, history, calls_of, continuations_of, live, in_flight, queued in *.
  destruct_world w.
  destruct tm; simpl; rewrite length_insert, list_lookup_insert_ne by done;
    (split_and!; try done);
    intros [?|[?|?%list_elem_of_singleton]%elem_of_app];
    (tauto || congruence).
Qed.

Lemma detached_onRejected r resp ref w :
  r ≠ ref → detached w ref →
  detached (onRejected r resp w) ref ∧ history ref (onRejected r resp w) = history ref w.
Proof.
  intros Hne Hover. unfold onRejected.
  repeat case_match;
    auto using detached_fire, detached_addFailedCall.
Qed.

Lemma detached_unreact pid ref w :
  detached w ref →
  let w' := with_reactions (base.delete pid (reactions w)) w in
  detached w' ref ∧ history ref w' = history ref w.
Proof.
  intros [Hlt Hdead]. cbv zeta.
  unfold detached, history, calls_of, continuations_of, live, in_flight, queued in *.
  destruct_world w. split_and!; try done.
  intros [[p [_ Hp]%lookup_delete_Some]|?]; eauto.
Qed.

Lemma detached_step e ref w :
  detached w ref → detached (step w e) ref ∧ history ref (step w e) = history ref w.
Proof.
  intros Hover. destruct e as [m a|pid s|h|]; simpl.
  - unfold transportMethod. case_match.
    + simpl.
      set (w1 := with_heap _ w).
      assert (detached w1 ref ∧ history ref w1 = history ref w) as [Ho1 <-].
      { destruct Hover as [Hlt Hdead].
        unfold w1, detached, history, calls_of, continuations_of, live, in_flight,
          queued in *.
        destruct_world w. rewrite length_app, lookup_app_l by done.
        split_and!; try done. lia. }
      apply detached_sendTransportCall; [|done]. destruct Hover. lia.
    + destruct Hover as [Hlt Hdead].
      unfold detached, history, calls_of, continuations_of, live, in_flight,
        queued in *.
      destruct_world w. split_and!; try done.
      rewrite filter_app, filter_cons_False, filter_nil, app_nil_r; done.
  - unfold settles. destruct (reactions w !! pid) as [r|] eqn:Hp; [|done].
    assert (r ≠ ref).
    { intros ->. destruct Hover as [_ Hdead]. apply Hdead. left. by exists pid. }
    destruct (detached_unreact pid ref w Hover) as [Ho1 <-].
    destruct s; [by apply detached_fire|by apply detached_onRejected].
  - unfold expires. case_match; [|done]. unfold retryFailedCalls.
    set (w1 := with_this _ _).
    assert (detached w1 ref ∧ history ref w1 = history ref w) as [Ho1 <-].
    { destruct Hover as [Hlt Hdead].
      unfold w1, detached, history, calls_of, continuations_of, live, in_flight,
        queued in *.
      by destruct_world w. }
    generalize (length (failedCalls (this w1))). intros fuel.
    apply (retry_loop_ind (λ w', detached w' ref ∧ history ref w' = history ref w1));
      [|done].
    intros w' r rest Hq [Ho' <-].
    set (w2 := with_this _ w').
    assert (r ≠ ref ∧ detached w2 ref ∧ history ref w2 = history ref w')
      as (? & ? & <-).
    { destruct Ho' as [Hlt Hdead].
      unfold w2, detached, history, calls_of, continuations_of, live, in_flight,
        queued in *.
      destruct_world w'. subst. split_and!; try done.
      - intros ->. apply Hdead. right. by left.
      - intros [?|?]; apply Hdead; [by left|]. right. by right. }
    by apply detached_sendTransportCall.
  - destruct Hover as [Hlt Hdead].
    unfold dispose, detached, history, calls_of, continuations_of, live, in_flight,
      queued in *.
    destruct_world w.
    destruct tm; simpl; (split_and!; try done); intros [?|?]; try tauto;
      set_solver.
Qed.

Lemma detached_run es ref w :
  detached w ref → detached (run w es) ref ∧ history ref (run w es) = history ref w.
Proof.
  revert w. induction es as [|e es IH]; intros w Hover; simpl; [done|].
  destruct (detached_step e ref w Hover) as [Ho1 <-]. by apply IH.
Qed.

Lemma continuations_of_fresh ref w :
  ref ∉ (settled w).*1 → continuations_of ref w = [].
Proof.
  unfold continuations_of. intros Hns.
  induction (settled w) as [|[r c] l IH]; [done|].
  simpl in Hns. apply not_elem_of_cons in Hns as [Hne Hns].
  rewrite filter_cons_False by (simpl; congruence). by apply IH.
Qed.

(** Once a continuation is called for a call that nothing refers to, it
    stays the only one. *)
Lemma final_continuation ref k w :
  Inv w → ref < length (heap w) → ¬ live w ref → ref ∉ (settled w).*1 →
  ∀ es,
    continuations_of ref (run (fire ref k w) es) = [k] ∧
    calls_of ref (run (fire ref k w) es) = calls_of ref w ∧
    heap (run (fire ref k w) es) !! ref = heap w !! ref ∧
    ¬ in_flight (run (fire ref k w) es) ref ∧
    ¬ queued (run (fire ref k w) es) ref.
Proof.
  intros Hinv Hlt Hdead Hns es.
  assert (Hover : detached (fire ref k w) ref) by by destruct w.
  destruct (detached_run es ref _ Hover) as [[_ Hdead'] Hhist].
  unfold history in Hhist. inversion Hhist as [[Hcalls Hconts Hheap]].
  rewrite Hcalls, Hconts, Hheap.
  split_and!; try done; [|unfold live in Hdead'; tauto..].
  unfold continuations_of, fire. simpl.
  rewrite filter_app, fmap_app. fold (continuations_of ref w).
  rewrite continuations_of_fresh by done.
  by rewrite filter_cons_True.
Qed.

(** ** Classification of failures *)

Lemma http_status_no_status r : carries_http_status r → no_status r = false.
Proof.
  intros (code & Hcode & Hget). unfold no_status, and_get.
  destruct r; try discriminate. simpl truthy at 2. cbv iota.
  rewrite Hget. simpl. destruct (Z.eqb_spec code 0); [lia|done].
Qed.

Lemma lacks_status_no_status r : lacks_status r → no_status r = true.
Proof.
  unfold no_status, and_get.
  destruct r as [| |[]|n| |s|props]; simpl; try done.
  - by destruct (Z.eqb_spec n 0) as [->|].
  - by destruct (String.eqb_spec s "") as [->|].
  - intros Hown. by rewrite Hown.
Qed.

Lemma falsy_status_no_status r : falsy_status r → no_status r = true.
Proof.
  intros [->|[->|(props & v & -> & Hown & Hv)]]; try done.
  unfold no_status, and_get. simpl. rewrite Hown. simpl. by rewrite Hv.
Qed.

(** ** Frames, the drain and single steps *)

(** What [sendTransportCall] and the loop leave untouched. *)
Lemma sendTransportCall_frame ref w :
  heap (sendTransportCall ref w) = heap w ∧
  settled (sendTransportCall ref w) = settled w ∧
  timers (sendTransportCall ref w) = timers w ∧
  next_timer (sendTransportCall ref w) = next_timer w ∧
  methods (this (sendTransportCall ref w)) = methods (this w) ∧
  retryTimeout (this (sendTransportCall ref w)) = retryTimeout (this w) ∧
  failedCalls (this (sendTransportCall ref w)) = failedCalls (this w) ∧
  retryTimer (this (sendTransportCall ref w)) = retryTimer (this w) ∧
  disposals (transport (this (sendTransportCall ref w))) =
    disposals (transport (this w)).
Proof. unfold sendTransportCall. by destruct (heap w !! ref). Qed.

Lemma retry_loop_frame fuel w :
  heap (retry_loop fuel w) = heap w ∧
  settled (retry_loop fuel w) = settled w ∧
  timers (retry_loop fuel w) = timers w ∧
  next_timer (retry_loop fuel w) = next_timer w ∧
  methods (this (retry_loop fuel w)) = methods (this w) ∧
  retryTimeout (this (retry_loop fuel w)) = retryTimeout (this w) ∧
  retryTimer (this (retry_loop fuel w)) = retryTimer (this w) ∧
  disposals (transport (this (retry_loop fuel w))) =
    disposals (transport (this w)).
Proof.
  apply (retry_loop_ind (λ w',
    heap w' = heap w ∧ settled w' = settled w ∧ timers w' = timers w ∧
    next_timer w' = next_timer w ∧
    methods (this w') = methods (this w) ∧
    retryTimeout (this w') = retryTimeout (this w) ∧
    retryTimer (this w') = retryTimer (this w) ∧
    disposals (transport (this w')) = disposals (transport (this w))));
    [|done].
  intros w' ref rest _ (<- & <- & <- & <- & <- & <- & <- & <-).
  destruct (sendTransportCall_frame ref
              (with_this (with_failedCalls rest (this w')) w'))
    as (-> & -> & -> & -> & -> & -> & _ & -> & ->).
  done.
Qed.

(** The length of the queue is enough fuel: the loop stops on an empty
    queue, having sent every queued call, oldest first. *)
Lemma retryFailedCalls_drains w :
  (∀ ref, ref ∈ failedCalls (this w) → ref < length (heap w)) →
  failedCalls (this (retryFailedCalls w)) = [] ∧
  ∃ l, drained (heap w) (failedCalls (this w)) l ∧
       invocations (transport (this (retryFailedCalls w))) =
       invocations (transport (this w)) ++ l.
Proof.
  unfold retryFailedCalls.
  set (w1 := with_this _ w).
  change (failedCalls (this w)) with (failedCalls (this w1)).
  change (heap w) with (heap w1).
  change (transport (this w)) with (transport (this w1)).
  clearbody w1. clear w.
  remember (failedCalls (this w1)) as q eqn:Hq.
  revert w1 Hq. induction q as [|ref q IH]; intros w Hq Hb; simpl.
  - rewrite <- Hq. split; [done|]. exists []. split; [constructor|].
    by rewrite app_nil_r.
  - rewrite <- Hq.
    destruct (lookup_lt_is_Some_2 (heap w) ref) as [c Hc];
      [apply Hb; by left|].
    set (w1 := with_this (with_failedCalls q (this w)) w).
    assert (Hc1 : heap w1 !! ref = Some c) by done.
    destruct (sendTransportCall_frame ref w1)
      as (Hheap & _ & _ & _ & _ & _ & Hq1 & _ & _).
    destruct (IH (sendTransportCall ref w1)) as (Hnil & l & Hl & Hlog).
    { by rewrite Hq1. }
    { rewrite Hheap. intros r Hr. apply Hb. by right. }
    split; [done|].
    exists (invocation_of ref c :: l). split.
    + constructor; [done|]. by rewrite Hheap in Hl.
    + rewrite Hlog, (sendTransportCall_eq _ _ _ Hc1). simpl.
      by rewrite <- app_assoc.
Qed.

Lemma step_methods w e : methods (this (step w e)) = methods (this w).
Proof.
  destruct e as [m a|pid s|h|]; simpl.
  - unfold transportMethod. case_match; simpl; [|done].
    by destruct (sendTransportCall_frame (length (heap w))
      (with_heap (heap w ++ [{| method := m; args := a; retryCount := 0 |}]) w))
      as (_ & _ & _ & _ & -> & _).
  - unfold settles. destruct (reactions w !! pid) as [r|]; [|done].
    destruct s; [done|]. unfold onRejected. simpl.
    destruct (heap w !! r) as [c|] eqn:Hc; [|done].
    destruct (no_status _); [|done].
    destruct (methods (this w) !! method c); [|done].
    destruct (_ <? _)%Z; [|done].
    unfold addFailedCall. simpl. rewrite Hc.
    by destruct (retryTimer (this w)).
  - unfold expires, retryFailedCalls. case_match; [|done].
    by destruct (retry_loop_frame
      (length (failedCalls (this (with_this (with_retryTimer None
         (this (expired h w))) (expired h w)))))
      (with_this (with_retryTimer None (this (expired h w))) (expired h w)))
      as (_ & _ & _ & _ & -> & _).
  - unfold dispose. by case_match.
Qed.

(** A step leaves a [transportCall] as it is or increments its
    [retryCount] while queuing it, and increments only below the limit. *)
Lemma step_retryCount w e ref c :
  heap w !! ref = Some c →
  heap (step w e) !! ref = Some c ∨
  ∃ p, methods (this w) !! method c = Some p ∧
       (retryCount c < retryLimit p)%Z ∧
       heap (step w e) !! ref = Some (retried c) ∧
       queued (step w e) ref.
Proof.
  intros Hc. destruct e as [m a|pid s|h|]; simpl.
  - left. unfold transportMethod. case_match; simpl; [|done].
    destruct (sendTransportCall_frame (length (heap w))
      (with_heap (heap w ++ [{| method := m; args := a; retryCount := 0 |}]) w))
      as (-> & _). simpl. by apply lookup_app_l_Some.
  - unfold settles. destruct (reactions w !! pid) as [r|]; [|by left].
    destruct s; [by left|].
    unfold onRejected. simpl.
    destruct (heap w !! r) as [c'|] eqn:Hc'; [|by left].
    destruct (no_status _); [|by left].
    destruct (methods (this w) !! method c') as [p|] eqn:Hm; [|by left].
    destruct (retryCount c' <? retryLimit p)%Z eqn:Hb; [|by left].
    apply Z.ltb_lt in Hb.
    unfold addFailedCall, queued. simpl. rewrite Hc'.
    assert (r < length (heap w)) by by eapply lookup_lt_Some.
    destruct (decide (ref = r)) as [->|Hne].
    + right. simplify_eq. exists p.
      destruct (retryTimer (this w)); simpl;
        rewrite list_lookup_insert_eq by done;
        (split_and!; try done); set_solver.
    + left. destruct (retryTimer (this w)); simpl;
        by rewrite list_lookup_insert_ne.
  - left. unfold expires, retryFailedCalls. case_match; [|done].
    by destruct (retry_loop_frame
      (length (failedCalls (this (with_this (with_retryTimer None
         (this (expired h w))) (expired h w)))))
      (with_this (with_retryTimer None (this (expired h w))) (expired h w)))
      as (-> & _).
  - left. unfold dispose. by case_match.
Qed.

(** One failed attempt with budget left, then the timeout: the call is sent
    again. *)
Lemma retry_round w pid ref c p r :
  reactions w !! pid = Some ref → heap w !! ref = Some c →
  methods (this w) !! method c = Some p →
  (retryCount c < retryLimit p)%Z → no_status r = true →
  failedCalls (this w) = [] → retryTimer (this w) = None → timers w = [] →
  run w [Settle pid (Rejected r); Expire (next_timer w)] =
  {| this :=
       with_transport
         {| invocations := invocations (transport (this w)) ++
                             [invocation_of ref c];
            disposals := disposals (transport (this w)) |} (this w);
     heap := <[ref := retried c]> (heap w);
     reactions := <[length (invocations (transport (this w))) := ref]>
                    (base.delete pid (reactions w));
     timers := [];
     next_timer := Pos.succ (next_timer w);
     settled := settled w |}.
Proof.
  intros Hp Hc Hm Hb%Z.ltb_lt Hr Hq Ht Hts.
  assert (Hlt : ref < length (heap w)) by by eapply lookup_lt_Some.
  destruct_world w. subst q tm ts.
  set (t := {| invocations := log; disposals := nd |}).
  assert (H1 :
    settles pid (Rejected r)
      {| this := {| retryTimeout := rt; methods := ms; transport := t;
                    failedCalls := []; retryTimer := None |};
         heap := hp; reactions := rs; timers := []; next_timer := nt;
         settled := st |} =
    {| this := {| retryTimeout := rt; methods := ms; transport := t;
                  failedCalls := [ref]; retryTimer := Some nt |};
       heap := <[ref := retried c]> hp; reactions := base.delete pid rs;
       timers := [(nt, rt)]; next_timer := Pos.succ nt; settled := st |}).
  { unfold settles, onRejected, addFailedCall. cbn. rewrite Hp. cbn.
    rewrite Hc, Hr. cbn. rewrite Hm, Hb. reflexivity. }
  unfold run. cbn [foldl step]. rewrite H1. subst t.
  unfold expires, pending. cbn.
  rewrite bool_decide_eq_true_2 by (by left).
  unfold retryFailedCalls, expired. cbn.
  rewrite decide_False by (by intros []). cbn.
  unfold sendTransportCall. cbn.
  rewrite list_lookup_insert_eq by done. reflexivity.
Qed.

Lemma exhaust_from rs : ∀ w pid ref c p,
  Inv w →
  reactions w !! pid = Some ref → heap w !! ref = Some c →
  methods (this w) !! method c = Some p →
  failedCalls (this w) = [] → retryTimer (this w) = None →
  length (invocations (transport (this w))) = S pid →
  (retryCount c ≤ retryLimit p)%Z →
  length rs = S (Z.to_nat (retryLimit p - retryCount c)) →
  Forall (λ r, no_status r = true) rs →
  let w' := run w (failures pid (next_timer w) rs) in
  invocations (transport (this w')) =
    invocations (transport (this w)) ++
      replicate (Z.to_nat (retryLimit p - retryCount c)) (invocation_of ref c) ∧
  settled w' = settled w ++ [(ref, Reject (CallObject ref))] ∧
  heap w' !! ref =
    Some {| method := method c; args := args c; retryCount := retryLimit p |} ∧
  ∀ es,
    continuations_of ref (run w' es) = [Reject (CallObject ref)] ∧
    calls_of ref (run w' es) = calls_of ref w' ∧
    ¬ in_flight (run w' es) ref ∧ ¬ queued (run w' es) ref.
Proof.
  induction rs as [|r rs IH]; intros w pid ref c p Hinv Hp Hc Hm Hq Ht Hlog Hle Hlen Hrs;
    [done|].
  apply Forall_cons in Hrs as [Hr Hrs].
  assert (Hts : timers w = []).
  { destruct Hinv as [_ _ _ _ _ _ _ _ _ Hts _]. rewrite Ht in Hts.
    by destruct (timers w). }
  destruct rs as [|r' rs].
  - (* the last failure: the limit is reached *)
    simpl in Hlen. assert (retryLimit p = retryCount c) as Heq by lia.
    cbv zeta. unfold failures, run. simpl.
    unfold settles. rewrite Hp.
    destruct (Inv_unreact pid ref w Hinv Hp) as (Hinv1 & Hlt & Hdead & Hns).
    unfold onRejected. simpl. rewrite Hc, Hr, Hm, Heq, Z.ltb_irrefl, Z.sub_diag.
    split_and!; simpl.
    + by rewrite app_nil_r.
    + done.
    + rewrite Hc. by destruct c.
    + intros es.
      destruct (final_continuation ref (Reject (CallObject ref)) _
                  Hinv1 Hlt Hdead Hns es) as (? & ? & ? & ? & ?).
      done.
  - (* budget left: one round, then the rest *)
    assert (retryCount c < retryLimit p)%Z as Hb by (simpl in Hlen; lia).
    cbv zeta.
    change (failures pid (next_timer w) (r :: r' :: rs)) with
      ([Settle pid (Rejected r); Expire (next_timer w)] ++
       failures (S pid) (Pos.succ (next_timer w)) (r' :: rs)).
    unfold run. rewrite foldl_app. fold (run w [Settle pid (Rejected r); Expire (next_timer w)]).
    set (w1 := run w [Settle pid (Rejected r); Expire (next_timer w)]).
    assert (Hinv1 : Inv w1) by by apply Inv_run.
    assert (Hw1 := retry_round w pid ref c p r Hp Hc Hm Hb Hr Hq Ht Hts).
    fold w1 in Hw1.
    assert (Hlt : ref < length (heap w)) by by eapply lookup_lt_Some.
    destruct (IH w1 (S pid) ref (retried c) p) as (Hlog' & Hst & Hheap & Hes);
      try done.
    + rewrite Hw1. simpl. rewrite <- Hlog. apply lookup_insert_eq.
    + rewrite Hw1. simpl. by apply list_lookup_insert_eq.
    + by rewrite Hw1.
    + by rewrite Hw1.
    + by rewrite Hw1.
    + rewrite Hw1. simpl. rewrite length_app. simpl. lia.
    + simpl. lia.
    + simpl in *. lia.
    + assert (Hnt : Pos.succ (next_timer w) = next_timer w1) by by rewrite Hw1.
      rewrite Hnt.
      change (foldl step) with run.
      split_and!; try done.
      * rewrite Hlog'. rewrite Hw1 at 1. simpl.
        replace (Z.to_nat (retryLimit p - retryCount c)) with
          (S (Z.to_nat (retryLimit p - (retryCount c + 1)))) by lia.
        by rewrite <- app_assoc.
      * rewrite Hst. by rewrite Hw1.
Qed.

(** A step calls at most one continuation, and a rejecter only with the
    [transportCall] object. *)
Lemma step_settled w e :
  settled (step w e) = settled w ∨
  ∃ ref k, settled (step w e) = settled w ++ [(ref, k)] ∧
           ((∃ v, k = Resolve v) ∨ k = Reject (CallObject ref)).
Proof.
  destruct e as [m a|pid s|h|]; simpl.
  - left. unfold transportMethod. case_match; simpl; [|done].
    by destruct (sendTransportCall_frame (length (heap w))
      (with_heap (heap w ++ [{| method := m; args := a; retryCount := 0 |}]) w))
      as (_ & -> & _).
  - unfold settles. destruct (reactions w !! pid) as [r|]; [|by left].
    destruct s as [v|resp]; [right; exists r, (Resolve v); eauto|].
    unfold onRejected. simpl.
    destruct (heap w !! r) as [c|] eqn:Hc; [|by left].
    destruct (no_status _);
      [|right; exists r, (Reject (CallObject r)); eauto].
    destruct (methods (this w) !! method c); [|by left].
    destruct (_ <? _)%Z;
      [|right; exists r, (Reject (CallObject r)); eauto].
    left. unfold addFailedCall. simpl. rewrite Hc.
    by destruct (retryTimer (this w)).
  - left. unfold expires, retryFailedCalls. case_match; [|done].
    by destruct (retry_loop_frame
      (length (failedCalls (this (with_this (with_retryTimer None
         (this (expired h w))) (expired h w)))))
      (with_this (with_retryTimer None (this (expired h w))) (expired h w)))
      as (_ & -> & _).
  - left. unfold dispose. by case_match.
Qed.

(** X2. In every reachable state, every call of a rejecter was applied to
    the [transportCall] object of its own call: no rejecter is ever applied
    to a failure descriptor. *)
Lemma rejecter_argument w ref a :
  reachable w → (ref, Reject a) ∈ settled w → a = CallObject ref.
Proof.
  intros Hw. revert ref a.
  induction Hw as [t options o Ho|w e _ IH]; intros ref a;
    [by intros ?%elem_of_nil|].
  destruct (step_settled w e) as [->|(r & k & -> & Hk)]; [apply IH|].
  intros [?|Hin%list_elem_of_singleton]%elem_of_app; [by apply IH|].
  destruct Hk as [[v ->]| ->]; by simplify_eq.
Qed.

(** [dispose] on an object without an active timer. *)
Lemma dispose_without_timer w :
  retryTimer (this w) = None →
  (dispose w).1 = None ∧
  failedCalls (this (dispose w).2) = [] ∧
  disposals (transport (this (dispose w).2)) = S (disposals (transport (this w))) ∧
  (dispose (dispose w).2).1 = None.
Proof. intros Ht. unfold dispose. simpl. rewrite Ht. simpl. by rewrite Ht. Qed.

(** [dispose] on an object with an active timer. *)
Lemma dispose_with_timer w h :
  retryTimer (this w) = Some h →
  (∃ msg, (dispose w).1 = Some (TypeError msg)) ∧
  failedCalls (this (dispose w).2) = [] ∧
  timers (dispose w).2 = timers w ∧
  retryTimer (this (dispose w).2) = Some h ∧
  transport (this (dispose w).2) = transport (this w).
Proof. intros Ht. unfold dispose. simpl. rewrite Ht. simpl. eauto 10. Qed.

(** ** Retry until the limit *)

(** C1. A managed verb with [retryLimit = N > 0] whose attempts all fail
    without a status.  After the call and N+1 such failures (a timeout
    expiring after each but the last), the wrapped transport has been called
    N+1 times for the call, each time with the caller's arguments: the first
    attempt and N retries, [retryCount] being N.  Then [reject] is called;
    it is the only continuation ever called for this call, whatever happens
    afterwards, and the call is never sent or queued again. *)
Theorem retry_limit_exhaustion t options o m p a rs :
  TransportRetry (Some t) options = inr o →
  methods o !! m = Some p → (0 < retryLimit p)%Z →
  length rs = S (Z.to_nat (retryLimit p)) →
  Forall lacks_status rs →
  let attempt := {| inv_method := m; inv_args := a; inv_call := Some 0 |} in
  let w := run (boot o) (Call m a :: failures (length (invocations t)) 1 rs) in
  invocations (transport (this w)) =
    invocations t ++ replicate (S (Z.to_nat (retryLimit p))) attempt ∧
  settled w = [(0, Reject (CallObject 0))] ∧
  heap w !! 0 =
    Some {| method := m; args := a; retryCount := retryLimit p |} ∧
  ∀ es,
    continuations_of 0 (run w es) = [Reject (CallObject 0)] ∧
    calls_of 0 (run w es) = calls_of 0 w ∧
    ¬ in_flight (run w es) 0 ∧ ¬ queued (run w es) 0.
Proof.
  intros Ho Hm Hp Hlen Hrs. cbv zeta.
  assert (Hinv : Inv (step (boot o) (Call m a))).
  { apply Inv_step. by eapply Inv_boot. }
  injection Ho as <-. simpl in Hm.
  change (run ?w (Call m a :: ?es)) with (run (step w (Call m a)) es).
  set (w0 := step _ (Call m a)) in *.
  set (c := {| method := m; args := a; retryCount := 0 |}).
  assert (Hw0 : w0 =
    {| this := {| retryTimeout := retryTimeout (this w0);
                  methods := methods (this w0);
                  transport :=
                    {| invocations := invocations t ++ [invocation_of 0 c];
                       disposals := disposals t |};
                  failedCalls := []; retryTimer := None |};
       heap := [c];
       reactions := <[length (invocations t) := 0]> ∅;
       timers := []; next_timer := 1; settled := [] |}).
  { unfold w0. simpl. unfold transportMethod, managed. simpl.
    rewrite Hm. by apply Z.ltb_lt in Hp as ->. }
  assert (Hms : methods (this w0) = default ∅ (options ≫= opt_methods)).
  { unfold w0. by rewrite step_methods. }
  destruct (exhaust_from rs w0 (length (invocations t)) 0 c p)
    as (Hlog & Hst & Hheap & Hes); try done.
  - rewrite Hw0. simpl. apply lookup_insert_eq.
  - by rewrite Hw0.
  - by rewrite Hms.
  - by rewrite Hw0.
  - by rewrite Hw0.
  - rewrite Hw0. simpl. rewrite length_app. simpl. lia.
  - simpl. lia.
  - simpl. by rewrite Z.sub_0_r.
  - eapply Forall_impl; [done|]. apply lacks_status_no_status.
  - assert (Hnt : next_timer w0 = 1%positive) by by rewrite Hw0.
    rewrite Hnt in *. simpl in Hlog, Hst, Hheap.
    rewrite Z.sub_0_r in Hlog.
    split_and!; try done.
    + rewrite Hlog. rewrite Hw0 at 1. simpl. by rewrite <- app_assoc.
    + rewrite Hst. by rewrite Hw0.
Qed.

Lemma retry_limit_exhaustion_witness :
  let w := run (boot example_object)
             (Call "delete" [Str "/orders/1"] ::
              failures 0 1 [Null; Obj [("message", Str "offline")]; Undefined]) in
  length (invocations (transport (this w))) = 3 ∧
  settled w = [(0, Reject (CallObject 0))] ∧
  continuations_of 0 (run w [Expire 3; Dispose]) = [Reject (CallObject 0)].
Proof.
  destruct (retry_limit_exhaustion example_transport (Some example_options)
              example_object "delete" {| retryLimit := 2 |}
              [Str "/orders/1"]
              [Null; Obj [("message", Str "offline")]; Undefined])
    as (Hlog & Hst & _ & Hes).
  - exact example_constructed.
  - vm_compute. reflexivity.
  - simpl. lia.
  - reflexivity.
  - repeat constructor.
  - split_and!.
    + exact (f_equal length Hlog).
    + exact Hst.
    + apply Hes.
Defined.

(** C2 (the code departs from it).  On both ways to a final failure, a
    failure with a status and a failure past the retry limit, [reject] is
    applied to the [transportCall] object and not to the failure descriptor
    the wrapped transport rejected with: [arguments] in the arrow function
    is the [arguments] of [sendTransportCall]. *)
Theorem rejecter_receives_the_transportCall :
  settled (run (boot example_object)
             [Call "delete" []; Settle 0 (Rejected status_500)]) =
    [(0, Reject (CallObject 0))] ∧
  settled (run (boot example_object)
             [Call "delete" []; Settle 0 (Rejected Null); Expire 1;
              Settle 1 (Rejected Null); Expire 2;
              Settle 2 (Rejected (Str "offline"))]) =
    [(0, Reject (CallObject 0))].
Proof. split; vm_compute; reflexivity. Qed.

(** ** Verbs without retry *)

(** C3. A verb that [methods] does not list, or lists with
    [retryLimit <= 0]: the method calls the wrapped transport once, with the
    same arguments, and returns the promise of that very call; no
    [transportCall] is allocated, no reaction is registered on the promise,
    and the queue and the timer are as they were. *)
Theorem unmanaged_verb_passes_through w m a :
  (methods (this w) !! m = None ∨
   ∃ p, methods (this w) !! m = Some p ∧ (retryLimit p ≤ 0)%Z) →
  ∃ w',
    transportMethod m a w =
      (TransportPromise (length (invocations (transport (this w)))), w') ∧
    invocations (transport (this w')) =
      invocations (transport (this w)) ++
        [{| inv_method := m; inv_args := a; inv_call := None |}] ∧
    disposals (transport (this w')) = disposals (transport (this w)) ∧
    failedCalls (this w') = failedCalls (this w) ∧
    retryTimer (this w') = retryTimer (this w) ∧
    heap w' = heap w ∧ reactions w' = reactions w ∧
    timers w' = timers w ∧ next_timer w' = next_timer w ∧
    settled w' = settled w.
Proof.
  intros Hm. unfold transportMethod.
  assert (managed (this w) m = false) as ->.
  { unfold managed. destruct Hm as [->|(p & -> & Hp)]; [done|].
    by apply Z.ltb_ge. }
  eexists. split; [reflexivity|]. done.
Qed.

Lemma unmanaged_verb_passes_through_witness :
  methods (this (boot example_object)) !! "get" = None ∧
  (transportMethod "get" [Str "/ports"] (boot example_object)).1 =
    TransportPromise 0 ∧
  failedCalls (this (transportMethod "get" [Str "/ports"] (boot example_object)).2) = [] ∧
  reactions (transportMethod "get" [Str "/ports"] (boot example_object)).2 = ∅.
Proof.
  assert (Hm : methods (this (boot example_object)) !! "get" = None)
    by (vm_compute; reflexivity).
  destruct (unmanaged_verb_passes_through (boot example_object) "get"
              [Str "/ports"] (or_introl Hm))
    as (w' & Heq & _ & _ & Hq & _ & _ & Hrs & _).
  rewrite Heq. split_and!; [exact Hm|reflexivity|exact Hq|exact Hrs].
Defined.

(** ** Failures with a status *)

(** C4. A managed call whose attempt fails with an HTTP status, whatever
    its [retryCount]: [reject] is called at once, the object (queue, timer
    and the calls of the wrapped transport) and the [transportCall] are
    unchanged, so there is no retry, and afterwards the call is never sent
    or queued again and no other continuation is called for it. *)
Theorem http_failure_rejected_at_once w pid ref r :
  reachable w → reactions w !! pid = Some ref → carries_http_status r →
  let w' := step w (Settle pid (Rejected r)) in
  this w' = this w ∧ heap w' = heap w ∧ timers w' = timers w ∧
  settled w' = settled w ++ [(ref, Reject (CallObject ref))] ∧
  ∀ es,
    continuations_of ref (run w' es) = [Reject (CallObject ref)] ∧
    calls_of ref (run w' es) = calls_of ref w ∧
    heap (run w' es) !! ref = heap w !! ref ∧
    ¬ in_flight (run w' es) ref ∧ ¬ queued (run w' es) ref.
Proof.
  intros Hinv%reachable_Inv Hp Hr%http_status_no_status.
  simpl. unfold settles. rewrite Hp.
  destruct (Inv_unreact pid ref w Hinv Hp) as (Hinv1 & Hlt & Hdead & Hns).
  unfold onRejected. simpl in Hlt.
  destruct (lookup_lt_is_Some_2 _ _ Hlt) as [c Hc]. simpl. rewrite Hc, Hr.
  split_and!; try done.
  intros es.
  destruct (final_continuation ref (Reject (CallObject ref)) _
              Hinv1 Hlt Hdead Hns es) as (? & ? & ? & ? & ?).
  split_and!; try done. by rewrite <- Hc.
Qed.

Lemma http_failure_rejected_at_once_witness :
  let w := run (boot example_object) [Call "delete" [Str "/orders/1"]] in
  reachable w ∧ reactions w !! 0 = Some 0 ∧ carries_http_status status_500 ∧
  this (step w (Settle 0 (Rejected status_500))) = this w.
Proof.
  cbv zeta.
  assert (Hr := example_reachable [Call "delete" [Str "/orders/1"]]).
  assert (Hp : reactions (run (boot example_object)
                 [Call "delete" [Str "/orders/1"]]) !! 0 = Some 0)
    by (vm_compute; reflexivity).
  assert (Hs : carries_http_status status_500).
  { exists 500%Z. split; [lia|reflexivity]. }
  split_and!; [exact Hr|exact Hp|exact Hs|].
  exact (proj1 (http_failure_rejected_at_once _ 0 0 status_500 Hr Hp Hs)).
Defined.

(** ** Disposal *)

(** C5 (the code departs from it).  Two calls of [delete]; the first has
    failed and waits in the queue under timer 1, the second is in flight.
    [dispose] empties the queue and then throws a [TypeError] at
    [this.retryTimer.clear()]: the timeout stays pending, the wrapped
    transport is not disposed, and a second [dispose] throws again.  When
    the call in flight fails afterwards it is queued, and the timeout that
    was not cancelled sends it again. *)
Theorem dispose_with_active_timer_throws :
  let w := run (boot example_object)
             [Call "delete" [Str "a"]; Call "delete" [Str "b"];
              Settle 0 (Rejected Null)] in
  retryTimer (this w) = Some 1%positive ∧
  (dispose w).1 = Some (TypeError "this.retryTimer.clear is not a function") ∧
  failedCalls (this (dispose w).2) = [] ∧
  timers (dispose w).2 = [(1%positive, 100%Z)] ∧
  disposals (transport (this (dispose w).2)) = 0 ∧
  (dispose (dispose w).2).1 =
    Some (TypeError "this.retryTimer.clear is not a function") ∧
  let w' := run w [Dispose; Settle 1 (Rejected Null); Expire 1] in
  calls_of 1 w' =
    [ {| inv_method := "delete"; inv_args := [Str "b"]; inv_call := Some 1 |};
      {| inv_method := "delete"; inv_args := [Str "b"]; inv_call := Some 1 |} ].
Proof. cbv zeta. split_and!; vm_compute; reflexivity. Qed.

(** ** The timer and the queue *)

(** C6. In every reachable state at most one timeout is pending, the one
    [retryTimer] holds.  [addFailedCall] under an active timer appends to the
    queue and starts no timer.  When the timeout expires, every queued call
    is sent again in that drain, oldest first; the queue is then empty and
    [retryTimer] is [null], so the next call to fail starts a new timeout,
    with a handle other than the expired one. *)
Theorem retries_share_one_timer :
  (∀ w, reachable w →
     (length (timers w) ≤ 1)%nat ∧
     (timers w).*1 = option_list (retryTimer (this w))) ∧
  (∀ w ref c h, heap w !! ref = Some c → retryTimer (this w) = Some h →
     let w' := addFailedCall ref w in
     retryTimer (this w') = Some h ∧ timers w' = timers w ∧
     failedCalls (this w') = failedCalls (this w) ++ [ref]) ∧
  (∀ w h, reachable w → pending h w = true →
     let w' := step w (Expire h) in
     (∃ l, drained (heap w) (failedCalls (this w)) l ∧
           invocations (transport (this w')) =
             invocations (transport (this w)) ++ l) ∧
     failedCalls (this w') = [] ∧
     retryTimer (this w') = None ∧ timers w' = [] ∧
     ∀ ref c, heap w' !! ref = Some c →
       let w'' := addFailedCall ref w' in
       retryTimer (this w'') = Some (next_timer w') ∧
       timers w'' = [(next_timer w', retryTimeout (this w))] ∧
       failedCalls (this w'') = [ref] ∧
       next_timer w' ≠ h).
Proof.
  split_and!.
  - intros w [_ _ _ _ _ _ _ _ _ Ht _]%reachable_Inv. split; [|done].
    apply (f_equal length) in Ht. rewrite length_fmap in Ht. rewrite Ht.
    by destruct (retryTimer (this w)); simpl; lia.
  - intros w ref c h Hc Ht. unfold addFailedCall. simpl. by rewrite Hc, Ht.
  - intros w h Hinv%reachable_Inv Hh. simpl. unfold expires. rewrite Hh.
    assert (Hx : timers (expired h w) = [] ∧ retryTimer (this w) = Some h).
    { destruct Hinv as [_ _ _ _ _ _ _ _ _ Ht _].
      unfold pending in Hh. apply bool_decide_eq_true in Hh.
      unfold expired. simpl. rewrite Ht in Hh.
      destruct (retryTimer (this w)) as [h'|]; simpl in *; [|set_solver].
      apply list_elem_of_singleton in Hh as ->.
      destruct (timers w) as [|[h1 d] [|??]]; simplify_eq/=.
      rewrite filter_cons_False; [done|]. simpl. by intros []. }
    destruct Hx as [Hts Hh'].
    destruct (retryFailedCalls_drains (expired h w)) as (Hq & l & Hl & Hlog).
    { apply Hinv. }
    destruct (retry_loop_frame
      (length (failedCalls (this (with_this (with_retryTimer None
         (this (expired h w))) (expired h w)))))
      (with_this (with_retryTimer None (this (expired h w))) (expired h w)))
      as (Hheap & _ & Htimers & Hnext & _ & Hrt & Htm & _).
    fold (retryFailedCalls (expired h w)) in *.
    simpl in Hheap, Hnext, Hrt, Htm.
    change (timers (retryFailedCalls (expired h w)) = timers (expired h w))
      in Htimers.
    rewrite Hts in Htimers.
    split_and!; try done; [by eauto|].
    intros ref c Hc. unfold addFailedCall. simpl.
    rewrite Hc. simpl. rewrite Htm. simpl. rewrite Hq, Htimers, Hnext, Hrt. simpl.
    split_and!; try done.
    apply inv_timer_old in Hh'; [|done]. lia.
Qed.

Lemma retries_share_one_timer_witness :
  let w := run (boot example_object)
             [Call "delete" [Str "a"]; Call "delete" [Str "b"];
              Settle 1 (Rejected Null); Settle 0 (Rejected Null)] in
  failedCalls (this w) = [1; 0] ∧ pending 1 w = true ∧
  (length (timers w) ≤ 1)%nat ∧
  failedCalls (this (step w (Expire 1))) = [].
Proof.
  cbv zeta.
  set (es := [Call "delete" [Str "a"]; Call "delete" [Str "b"];
              Settle 1 (Rejected Null); Settle 0 (Rejected Null)]).
  assert (Hw := example_reachable es).
  assert (Hq : failedCalls (this (run (boot example_object) es)) = [1; 0])
    by (vm_compute; reflexivity).
  assert (Hp : pending 1 (run (boot example_object) es) = true)
    by (vm_compute; reflexivity).
  destruct retries_share_one_timer as (Hone & _ & Hfire).
  destruct (Hone _ Hw) as [Hle _].
  destruct (Hfire _ 1%positive Hw Hp) as (_ & Hnil & _).
  split_and!; [exact Hq|exact Hp|exact Hle|exact Hnil].
Defined.

(** ** Success *)

(** C7. When an attempt of a managed call succeeds, the first or a retry,
    [resolve] is called with the value of the wrapped transport; it is the
    only continuation ever called for this call, whatever happens
    afterwards, and the call is never sent or queued again. *)
Theorem success_resolves_once w pid ref v :
  reachable w → reactions w !! pid = Some ref →
  let w' := step w (Settle pid (Fulfilled v)) in
  settled w' = settled w ++ [(ref, Resolve v)] ∧
  ∀ es,
    continuations_of ref (run w' es) = [Resolve v] ∧
    calls_of ref (run w' es) = calls_of ref w ∧
    ¬ in_flight (run w' es) ref ∧ ¬ queued (run w' es) ref.
Proof.
  intros Hinv%reachable_Inv Hp. simpl. unfold settles. rewrite Hp.
  destruct (Inv_unreact pid ref w Hinv Hp) as (Hinv1 & Hlt & Hdead & Hns).
  split; [done|]. intros es.
  destruct (final_continuation ref (Resolve v) _ Hinv1 Hlt Hdead Hns es)
    as (? & ? & ? & ? & ?).
  done.
Qed.

Lemma success_resolves_once_witness :
  let w := run (boot example_object) [Call "delete" [Str "/orders/1"]] in
  reachable w ∧ reactions w !! 0 = Some 0 ∧
  settled (step w (Settle 0 (Fulfilled (Str "done")))) =
    settled w ++ [(0, Resolve (Str "done"))].
Proof.
  cbv zeta.
  assert (Hr := example_reachable [Call "delete" [Str "/orders/1"]]).
  assert (Hp : reactions (run (boot example_object)
                 [Call "delete" [Str "/orders/1"]]) !! 0 = Some 0)
    by (vm_compute; reflexivity).
  split_and!; [exact Hr|exact Hp|].
  exact (proj1 (success_resolves_once _ 0 0 (Str "done") Hr Hp)).
Defined.

(** ** Construction *)

(** C8. The constructor throws exactly when there is no transport.
    Otherwise the object holds the transport, an empty queue and no timer;
    [retryTimeout] is the given one when positive and 0 when it is not
    positive or not given; [methods] is the given mapping, or the empty one
    when none is given. *)
Theorem construction t options :
  ((∃ e, TransportRetry t options = inl e) ↔ t = None) ∧
  ∀ t', t = Some t' →
    ∃ o, TransportRetry t options = inr o ∧
      transport o = t' ∧ failedCalls o = [] ∧ retryTimer o = None ∧
      (∀ n, options ≫= opt_retryTimeout = Some n → (0 < n)%Z →
            retryTimeout o = n) ∧
      (∀ n, options ≫= opt_retryTimeout = Some n → (n ≤ 0)%Z →
            retryTimeout o = 0%Z) ∧
      (options ≫= opt_retryTimeout = None → retryTimeout o = 0%Z) ∧
      (∀ ms, options ≫= opt_methods = Some ms → methods o = ms) ∧
      (options ≫= opt_methods = None → methods o = ∅).
Proof.
  split.
  - destruct t; simpl; split; [intros [? [=]]|done|done|eauto].
  - intros t' ->. eexists. split; [reflexivity|]. simpl.
    split_and!; try done.
    + intros n -> Hn. by apply Z.ltb_lt in Hn as ->.
    + intros n -> Hn. by apply Z.ltb_ge in Hn as ->.
    + by intros ->.
    + by intros ms ->.
    + by intros ->.
Qed.

(** ** The retry count *)

(** C9. A [transportCall] starts with [retryCount = 0]; in every
    reachable state its [retryCount] lies between 0 and the [retryLimit] of
    its verb; a step leaves the object as it is or increments [retryCount]
    by one, and increments only when it was below the limit and the call is
    queued; a failure of a call at its limit is final: [reject] is called and
    the call is not queued. *)
Theorem retryCount_within_limit :
  (∀ w m a ref w', transportMethod m a w = (NewPromise ref, w') →
     heap w' !! ref = Some {| method := m; args := a; retryCount := 0 |}) ∧
  (∀ w ref c, reachable w → heap w !! ref = Some c →
     ∃ p, methods (this w) !! method c = Some p ∧
          (0 ≤ retryCount c ≤ retryLimit p)%Z) ∧
  (∀ w e ref c, heap w !! ref = Some c →
     methods (this (step w e)) = methods (this w) ∧
     (heap (step w e) !! ref = Some c ∨
      ∃ p, methods (this w) !! method c = Some p ∧
           (retryCount c < retryLimit p)%Z ∧
           heap (step w e) !! ref = Some (retried c) ∧
           queued (step w e) ref)) ∧
  (∀ w pid ref c p r, reachable w →
     reactions w !! pid = Some ref → heap w !! ref = Some c →
     methods (this w) !! method c = Some p →
     (retryLimit p ≤ retryCount c)%Z →
     let w' := step w (Settle pid (Rejected r)) in
     settled w' = settled w ++ [(ref, Reject (CallObject ref))] ∧
     heap w' = heap w ∧ ¬ queued w' ref).
Proof.
  split_and!.
  - intros w m a ref w'. unfold transportMethod.
    destruct (managed (this w) m); [|by destruct (invoke m a None w)].
    intros [= <- <-].
    destruct (sendTransportCall_frame (length (heap w))
      (with_heap (heap w ++ [{| method := m; args := a; retryCount := 0 |}]) w))
      as (-> & _). simpl.
    rewrite lookup_app_r, Nat.sub_diag by done. done.
  - intros w ref c Hinv%reachable_Inv. apply Hinv.
  - intros w e ref c Hc. split; [apply step_methods|by apply step_retryCount].
  - intros w pid ref c p r Hinv%reachable_Inv Hp Hc Hm Hb.
    apply Z.ltb_ge in Hb.
    simpl. unfold settles, onRejected. rewrite Hp. simpl. rewrite Hc, Hm, Hb.
    assert (¬ queued w ref) by (by eapply inv_reaction_queue).
    by destruct (no_status r).
Qed.

Lemma retryCount_within_limit_witness :
  let w := run (boot example_object)
             [Call "delete" []; Settle 0 (Rejected Null); Expire 1;
              Settle 1 (Rejected Null)] in
  ∃ p, methods (this w) !! "delete" = Some p ∧ (0 ≤ 2 ≤ retryLimit p)%Z.
Proof.
  cbv zeta.
  destruct retryCount_within_limit as (_ & Hle & _).
  apply (Hle _ 0 {| method := "delete"; args := []; retryCount := 2 |}).
  - apply example_reachable.
  - vm_compute. reflexivity.
Defined.

(** ** Truthiness of the status *)

(** C10. The handler tests the truthiness of [response && response.status]:
    a managed call with budget left whose attempt fails with [undefined],
    [null], or a descriptor whose [status] is present and falsy is queued
    with [retryCount] incremented, under a timer, and no continuation is
    called. *)
Theorem falsy_status_is_retried w pid ref c p r :
  reactions w !! pid = Some ref → heap w !! ref = Some c →
  methods (this w) !! method c = Some p →
  (retryCount c < retryLimit p)%Z →
  falsy_status r →
  let w' := step w (Settle pid (Rejected r)) in
  no_status r = true ∧
  failedCalls (this w') = failedCalls (this w) ++ [ref] ∧
  heap w' = <[ref := retried c]> (heap w) ∧
  is_Some (retryTimer (this w')) ∧
  transport (this w') = transport (this w) ∧
  settled w' = settled w.
Proof.
  intros Hp Hc Hm Hb Hr%falsy_status_no_status.
  apply Z.ltb_lt in Hb.
  simpl. unfold settles, onRejected, addFailedCall. rewrite Hp. simpl.
  rewrite Hc, Hr, Hm, Hb. split; [done|].
  destruct_world w. destruct tm; simpl; eauto 10.
Qed.

Lemma falsy_status_is_retried_witness :
  let w := run (boot example_object) [Call "delete" [Str "/orders/1"]] in
  let c := {| method := "delete"; args := [Str "/orders/1"]; retryCount := 0 |} in
  let r := Obj [("status", Num 0)] in
  reactions w !! 0 = Some 0 ∧ heap w !! 0 = Some c ∧ falsy_status r ∧
  failedCalls (this (step w (Settle 0 (Rejected r)))) = failedCalls (this w) ++ [0].
Proof.
  cbv zeta.
  set (w := run (boot example_object) [Call "delete" [Str "/orders/1"]]).
  set (c := {| method := "delete"; args := [Str "/orders/1"]; retryCount := 0 |}).
  set (r := Obj [("status", Num 0)]).
  assert (Hp : reactions w !! 0 = Some 0) by (vm_compute; reflexivity).
  assert (Hc : heap w !! 0 = Some c) by (vm_compute; reflexivity).
  assert (Hm : methods (this w) !! method c = Some {| retryLimit := 2 |})
    by (vm_compute; reflexivity).
  assert (Hb : (retryCount c < retryLimit {| retryLimit := 2 |})%Z)
    by (simpl; lia).
  assert (Hf : falsy_status r).
  { right. right. exists [("status", Num 0)], (Num 0). by split_and!. }
  split_and!; [exact Hp|exact Hc|exact Hf|].
  exact (proj1 (proj2 (falsy_status_is_retried w 0 0 c _ r Hp Hc Hm Hb Hf))).
Defined.

(** * Further properties *)

(** ** Disposal *)

(** X1. In every reachable state [dispose] returns normally exactly when no
    timeout is pending.  Either way it empties the queue and leaves the
    reactions, the pending timeouts, [retryTimer] and the calls made of the
    wrapped transport as they are; the wrapped transport is disposed when
    [dispose] returns normally and not when it throws. *)
Theorem dispose_throws_iff_timeout_pending w :
  reachable w →
  ((dispose w).1 = None ↔ timers w = []) ∧
  failedCalls (this (dispose w).2) = [] ∧
  reactions (dispose w).2 = reactions w ∧
  timers (dispose w).2 = timers w ∧
  retryTimer (this (dispose w).2) = retryTimer (this w) ∧
  invocations (transport (this (dispose w).2)) =
    invocations (transport (this w)) ∧
  disposals (transport (this (dispose w).2)) =
    match (dispose w).1 with
    | Some _ => disposals (transport (this w))
    | None => S (disposals (transport (this w)))
    end.
Proof.
  intros [_ _ _ _ _ _ _ _ _ Ht _]%reachable_Inv.
  unfold dispose. simpl.
  destruct (retryTimer (this w)) as [h|] eqn:Htm; simpl in *.
  - split_and!; try done. split; [done|]. intros Hts. by rewrite Hts in Ht.
  - split_and!; try done. split; [|done]. intros _. by destruct (timers w).
Qed.

Lemma dispose_throws_iff_timeout_pending_witness :
  let w := run (boot example_object)
             [Call "delete" []; Settle 0 (Rejected Null)] in
  reactions (dispose w).2 = reactions w ∧
  timers (dispose w).2 = timers w ∧
  timers w = [(1%positive, 100%Z)].
Proof.
  cbv zeta.
  set (es := [Call "delete" []; Settle 0 (Rejected Null)]).
  assert (Hw := example_reachable es).
  destruct (dispose_throws_iff_timeout_pending _ Hw) as (_ & _ & Hr & Ht & _).
  split_and!; [exact Hr|exact Ht|vm_compute; reflexivity].
Defined.

(** X3. A call that waits in the queue when [dispose] is called is dropped
    for good, whether [dispose] throws or not: whatever happens afterwards,
    none of its continuations is ever called, the wrapped transport is never
    called for it again, and it is neither in flight nor queued. *)
Theorem dispose_abandons_queued_calls w ref :
  reachable w → queued w ref →
  ∀ es,
    continuations_of ref (run (dispose w).2 es) = [] ∧
    calls_of ref (run (dispose w).2 es) = calls_of ref w ∧
    ¬ in_flight (run (dispose w).2 es) ref ∧
    ¬ queued (run (dispose w).2 es) ref.
Proof.
  intros Hinv%reachable_Inv Hq es.
  assert (Hns : continuations_of ref w = []).
  { apply continuations_of_fresh. intros Hin.
    eapply inv_settled_dead; [done..|]. by right. }
  assert (Hd : detached (dispose w).2 ref ∧
               history ref (dispose w).2 = history ref w).
  { assert (Hlt : ref < length (heap w)) by by apply inv_queue_bounds.
    assert (Hnf : ¬ in_flight w ref).
    { intros [pid Hp]. by eapply inv_reaction_queue. }
    unfold dispose, detached, history, calls_of, continuations_of, live,
      in_flight, queued in *.
    destruct_world w.
    destruct tm; simpl; (split_and!; try done); intros [?|?]; try tauto;
      set_solver. }
  destruct Hd as [Hd Hh].
  destruct (detached_run es ref _ Hd) as [[_ Hdead] Hhist].
  rewrite Hh in Hhist.
  assert (Hcalls := f_equal (λ x, x.1.1) Hhist).
  assert (Hconts := f_equal (λ x, x.1.2) Hhist).
  simpl in Hcalls, Hconts. unfold live in Hdead.
  rewrite Hcalls, Hconts, Hns. tauto.
Qed.

Lemma dispose_abandons_queued_calls_witness :
  let w := run (boot example_object)
             [Call "delete" []; Settle 0 (Rejected Null)] in
  queued w 0 ∧
  continuations_of 0 (run (dispose w).2 [Expire 1; Dispose]) = [].
Proof.
  cbv zeta.
  set (es := [Call "delete" []; Settle 0 (Rejected Null)]).
  assert (Hw := example_reachable es).
  assert (Hq : queued (run (boot example_object) es) 0).
  { unfold queued. vm_compute. left. }
  destruct (dispose_abandons_queued_calls _ 0 Hw Hq [Expire 1; Dispose])
    as (Hc & _).
  split; [exact Hq|exact Hc].
Defined.

(** X10. [dispose] does not touch a call in flight.  With no timeout
    pending [dispose] returns normally and disposes the wrapped transport; a
    success that arrives afterwards still resolves the caller's promise,
    and a failure without a status that arrives afterwards, with budget
    left, starts a timeout after which the disposed transport is called
    again. *)
Theorem dispose_does_not_stop_a_call_in_flight w pid ref c p r v :
  reachable w → retryTimer (this w) = None →
  reactions w !! pid = Some ref → heap w !! ref = Some c →
  methods (this w) !! method c = Some p →
  (retryCount c < retryLimit p)%Z → lacks_status r →
  (dispose w).1 = None ∧
  settled (run w [Dispose; Settle pid (Fulfilled v)]) =
    settled w ++ [(ref, Resolve v)] ∧
  let w' := run w [Dispose; Settle pid (Rejected r); Expire (next_timer w)] in
  disposals (transport (this w')) = S (disposals (transport (this w))) ∧
  invocations (transport (this w')) =
    invocations (transport (this w)) ++ [invocation_of ref c] ∧
  in_flight w' ref.
Proof.
  intros Hinv%reachable_Inv Ht Hp Hc Hm Hb Hr%lacks_status_no_status.
  assert (Hts : timers w = []).
  { destruct Hinv as [_ _ _ _ _ _ _ _ _ Hts _]. rewrite Ht in Hts.
    by destruct (timers w). }
  set (w1 := (dispose w).2).
  assert (Hw1 : (dispose w).1 = None ∧
    w1 = with_this
           (with_transport
              {| invocations := invocations (transport (this w));
                 disposals := S (disposals (transport (this w))) |}
              (with_failedCalls [] (this w))) w).
  { unfold w1, dispose. simpl. by rewrite Ht. }
  destruct Hw1 as [Hnone Hw1].
  split_and!; [done| |].
  - change (run w [Dispose; Settle pid (Fulfilled v)]) with
      (step w1 (Settle pid (Fulfilled v))).
    rewrite Hw1. simpl. unfold settles. simpl. by rewrite Hp.
  - cbv zeta.
    assert (Hnt : next_timer w = next_timer w1) by by rewrite Hw1.
    change (run w [Dispose; Settle pid (Rejected r); Expire (next_timer w)])
      with (run w1 [Settle pid (Rejected r); Expire (next_timer w)]).
    rewrite Hnt.
    rewrite (retry_round w1 pid ref c p r); rewrite ?Hw1; try done.
    simpl. split_and!; try done.
    eexists. apply lookup_insert_eq.
Qed.

Lemma dispose_does_not_stop_a_call_in_flight_witness :
  let w := run (boot example_object) [Call "delete" []] in
  (dispose w).1 = None ∧
  settled (run w [Dispose; Settle 0 (Fulfilled (Str "late"))]) =
    settled w ++ [(0, Resolve (Str "late"))].
Proof.
  cbv zeta.
  set (es := [Call "delete" []]).
  set (c := {| method := "delete"; args := []; retryCount := 0 |}).
  assert (Hw := example_reachable es).
  assert (Ht : retryTimer (this (run (boot example_object) es)) = None)
    by (vm_compute; reflexivity).
  assert (Hp : reactions (run (boot example_object) es) !! 0 = Some 0)
    by (vm_compute; reflexivity).
  assert (Hc : heap (run (boot example_object) es) !! 0 = Some c)
    by (vm_compute; reflexivity).
  assert (Hm : methods (this (run (boot example_object) es)) !! method c =
               Some {| retryLimit := 2 |}) by (vm_compute; reflexivity).
  assert (Hb : (retryCount c < retryLimit {| retryLimit := 2 |})%Z)
    by (simpl; lia).
  destruct (dispose_does_not_stop_a_call_in_flight _ 0 0 c _ Null (Str "late")
              Hw Ht Hp Hc Hm Hb I) as (Hn & Hst & _).
  split; [exact Hn|exact Hst].
Defined.

(** X13. When a timeout is pending [dispose] throws a [TypeError]; once
    that timeout has expired (it finds the queue empty, calls nothing and
    clears [retryTimer]) a further [dispose] returns normally and disposes
    the wrapped transport. *)
Theorem dispose_succeeds_after_the_timeout w h :
  reachable w → retryTimer (this w) = Some h →
  let w1 := run w [Dispose; Expire h] in
  (∃ msg, (dispose w).1 = Some (TypeError msg)) ∧
  transport (this w1) = transport (this w) ∧
  retryTimer (this w1) = None ∧ timers w1 = [] ∧
  failedCalls (this w1) = [] ∧
  (dispose w1).1 = None ∧
  disposals (transport (this (dispose w1).2)) =
    S (disposals (transport (this w))).
Proof.
  intros Hinv%reachable_Inv Ht. cbv zeta.
  assert (Hts : ∃ d, timers w = [(h, d)]).
  { destruct Hinv as [_ _ _ _ _ _ _ _ _ Hts _]. rewrite Ht in Hts.
    destruct (timers w) as [|[h' d] [|??]]; simplify_eq/=. eauto. }
  destruct Hts as [d Hts].
  assert (H1 : run w [Dispose; Expire h] =
    with_this (with_retryTimer None (with_failedCalls [] (this w)))
      (with_timers [] (next_timer w) w)).
  { unfold run. cbn [foldl step]. unfold dispose. cbn. rewrite Ht. cbn.
    unfold expires, pending. cbn. rewrite Hts. cbn.
    rewrite bool_decide_eq_true_2 by (by left).
    unfold retryFailedCalls, expired. cbn. rewrite Hts. cbn.
    by rewrite decide_False by (by intros []). }
  rewrite H1. unfold dispose. cbn. rewrite Ht. cbn. split_and!; eauto.
Qed.

Lemma dispose_succeeds_after_the_timeout_witness :
  let w := run (boot example_object)
             [Call "delete" []; Settle 0 (Rejected Null)] in
  retryTimer (this w) = Some 1%positive ∧
  (dispose (run w [Dispose; Expire 1])).1 = None.
Proof.
  cbv zeta.
  set (es := [Call "delete" []; Settle 0 (Rejected Null)]).
  assert (Hw := example_reachable es).
  assert (Ht : retryTimer (this (run (boot example_object) es)) =
               Some 1%positive) by (vm_compute; reflexivity).
  destruct (dispose_succeeds_after_the_timeout _ 1%positive Hw Ht)
    as (_ & _ & _ & _ & _ & Hn & _).
  split; [exact Ht|exact Hn].
Defined.

(** ** Continuations *)

Lemma rejecter_argument_witness :
  let w := run (boot example_object)
             [Call "delete" []; Settle 0 (Rejected status_500)] in
  (0, Reject (CallObject 0)) ∈ settled w ∧ CallObject 0 = CallObject 0.
Proof.
  cbv zeta.
  set (es := [Call "delete" []; Settle 0 (Rejected status_500)]).
  assert (Hw := example_reachable es).
  assert (Hin : (0, Reject (CallObject 0)) ∈ settled (run (boot example_object) es)).
  { vm_compute. left. }
  split; [exact Hin|exact (rejecter_argument _ _ _ Hw Hin)].
Defined.

(** Keys without repetition select at most one entry. *)
Lemma filter_keys_NoDup (l : list (nat * Continuation)) ref :
  NoDup l.*1 → (length (filter (λ x, x.1 = ref) l) ≤ 1)%nat.
Proof.
  induction l as [|[r k] l IH]; simpl; [lia|].
  intros [Hnin Hnd]%NoDup_cons.
  destruct (decide (r = ref)) as [->|Hne].
  - rewrite filter_cons_True by done. simpl.
    assert (filter (λ x : nat * Continuation, x.1 = ref) l = []) as ->; [|done].
    clear -Hnin. induction l as [|[r k] l IH]; [done|].
    simpl in Hnin. apply not_elem_of_cons in Hnin as [Hne Hnin].
    rewrite filter_cons_False by (simpl; congruence). by apply IH.
  - rewrite filter_cons_False by done. by apply IH.
Qed.

(** X4. In every reachable state at most one continuation has been called
    for any [transportCall], and none for a call that is in flight or
    queued. *)
Theorem continuation_at_most_once w ref :
  reachable w →
  (length (continuations_of ref w) ≤ 1)%nat ∧
  (live w ref → continuations_of ref w = []).
Proof.
  intros Hinv%reachable_Inv. split.
  - unfold continuations_of. rewrite length_fmap.
    apply filter_keys_NoDup, Hinv.
  - intros Hlive. apply continuations_of_fresh.
    intros Hin. by eapply inv_settled_dead.
Qed.

Lemma continuation_at_most_once_witness :
  let w := run (boot example_object)
             [Call "delete" []; Settle 0 (Fulfilled (Str "done"))] in
  continuations_of 0 w = [Resolve (Str "done")] ∧
  (length (continuations_of 0 w) ≤ 1)%nat.
Proof.
  cbv zeta.
  set (es := [Call "delete" []; Settle 0 (Fulfilled (Str "done"))]).
  assert (Hw := example_reachable es).
  destruct (continuation_at_most_once _ 0 Hw) as (Hle & _).
  split; [vm_compute; reflexivity|exact Hle].
Defined.

(** ** Counting the calls of the wrapped transport *)

(** The calls made for [r] after one more call of the wrapped transport. *)
Lemma filter_call_snoc (log : list Invocation) i r :
  filter (λ i, inv_call i = Some r) (log ++ [i]) =
  filter (λ i, inv_call i = Some r) log ++
    (if decide (inv_call i = Some r) then [i] else []).
Proof.
  rewrite filter_app. by f_equal.
Qed.

(** [Counted] holds after construction and is kept by every operation. *)
Lemma Counted_boot t options o :
  TransportRetry (Some t) options = inr o →
  Forall (λ i, inv_call i = None) (invocations t) →
  Counted (boot o).
Proof.
  intros [= <-] Hlog.
  split; unfold attempts, calls_of, queued, in_flight; simpl;
    try (intros; simplify_map_eq; fail); try done.
  intros ref _. induction Hlog as [|i l Hi _ IH]; [done|].
  rewrite filter_cons_False; [done|]. congruence.
Qed.

Lemma Counted_sendTransportCall ref c w :
  Counted w → heap w !! ref = Some c →
  attempts ref w = retryCount c → ¬ queued w ref →
  Counted (sendTransportCall ref w).
Proof.
  intros [] Hc Hn Hnq.
  assert (Hlt : ref < length (heap w)) by by eapply lookup_lt_Some.
  rewrite (sendTransportCall_eq _ _ _ Hc).
  unfold attempts, calls_of, queued, in_flight in *.
  destruct_world w.
  split; unfold attempts, calls_of, queued, in_flight; simpl;
    intros r; rewrite filter_call_snoc; simpl;
    (destruct (decide (Some ref = Some r)) as [[= <-]|Hne];
     [|rewrite app_nil_r]).
  - lia.
  - eauto.
  - intros c' Hc'. simplify_eq. rewrite length_app. simpl.
    destruct (counted_range0 _ _ Hc). lia.
  - eauto.
  - done.
  - eauto.
  - intros c' Hc' _. simplify_eq. rewrite length_app. simpl. lia.
  - intros c' Hc' [pid Hp]. rewrite lookup_insert in Hp.
    case_decide; simplify_eq. eauto.
  - intros c' i Hc' [?|Hi%list_elem_of_singleton]%elem_of_app;
      simplify_eq; eauto.
  - eauto.
Qed.

Lemma Counted_shift ref rest w :
  Inv w → Counted w → failedCalls (this w) = ref :: rest →
  let w' := with_this (with_failedCalls rest (this w)) w in
  Counted w' ∧ ¬ queued w' ref ∧
  ∃ c, heap w' !! ref = Some c ∧ attempts ref w' = retryCount c.
Proof.
  intros Hinv [] Hq. cbv zeta.
  destruct (lookup_lt_is_Some_2 (heap w) ref) as [c Hc].
  { apply Hinv. rewrite Hq. by left. }
  assert (Hn : attempts ref w = retryCount c).
  { eapply counted_queued0; [done|]. unfold queued. rewrite Hq. by left. }
  assert (Hnd := inv_queue_nodup _ Hinv). rewrite Hq in Hnd.
  apply NoDup_cons in Hnd as [Hnin _].
  unfold attempts, calls_of, queued, in_flight in *.
  destruct_world w. subst q.
  split_and!; [split; unfold attempts, calls_of, queued, in_flight; simpl;
               try done| |by eauto].
  - intros r c' Hc' Hr. eapply counted_queued0; [done|]. by right.
  - done.
Qed.

Lemma Counted_unreact pid w :
  Counted w → Counted (with_reactions (base.delete pid (reactions w)) w).
Proof.
  intros []. unfold attempts, calls_of, queued, in_flight in *.
  destruct_world w.
  split; unfold attempts, calls_of, queued, in_flight; simpl; try done.
  intros r c Hc [p [_ Hp]%lookup_delete_Some]. eauto.
Qed.

Lemma Counted_fire ref k w : Counted w → Counted (fire ref k w).
Proof. intros []. by destruct_world w. Qed.

Lemma Counted_addFailedCall ref c w :
  Counted w → heap w !! ref = Some c →
  attempts ref w = (retryCount c + 1)%Z → ¬ in_flight w ref →
  Counted (addFailedCall ref w).
Proof.
  intros [] Hc Hn Hnf.
  assert (Hlt : ref < length (heap w)) by by eapply lookup_lt_Some.
  unfold addFailedCall. rewrite Hc.
  unfold attempts, calls_of, queued, in_flight in *.
  destruct_world w.
  assert (HC : ∀ tm' ts' nt',
    Counted
      {| this := {| retryTimeout := rt; methods := ms;
                    transport := {| invocations := log; disposals := nd |};
                    failedCalls := q ++ [ref]; retryTimer := tm' |};
         heap := <[ref := {| method := method c; args := args c;
                             retryCount := retryCount c + 1 |}]> hp;
         reactions := rs; timers := ts'; next_timer := nt'; settled := st |}).
  { intros tm' ts' nt'.
    split; unfold attempts, calls_of, queued, in_flight; simpl;
      rewrite ?length_insert; try done.
    - intros r c'. destruct (decide (r = ref)) as [->|Hne].
      + rewrite list_lookup_insert_eq by done. intros [= <-]. simpl.
        destruct (counted_range0 _ _ Hc). lia.
      + rewrite list_lookup_insert_ne by done. eauto.
    - intros r c'. destruct (decide (r = ref)) as [->|Hne].
      + rewrite list_lookup_insert_eq by done. by intros [= <-].
      + rewrite list_lookup_insert_ne by done.
        intros Hc' [?|?%list_elem_of_singleton]%elem_of_app; [eauto|done].
    - intros r c'. destruct (decide (r = ref)) as [->|Hne].
      + by intros _ ?.
      + rewrite list_lookup_insert_ne by done. eauto.
    - intros r c' i. destruct (decide (r = ref)) as [->|Hne].
      + rewrite list_lookup_insert_eq by done. intros [= <-] Hi.
        change (i = invocation_of ref c). by eapply counted_same0.
      + rewrite list_lookup_insert_ne by done. eauto. }
  destruct tm; apply HC.
Qed.

Lemma Counted_step w e : Inv w → Counted w → Counted (step w e).
Proof.
  intros Hinv HC. destruct e as [m a|pid s|h|]; simpl.
  - unfold transportMethod. case_match; simpl.
    + set (c := {| method := m; args := a; retryCount := 0 |}).
      assert (Hc : heap (with_heap (heap w ++ [c]) w) !! length (heap w) = Some c).
      { simpl. by rewrite lookup_app_r, Nat.sub_diag. }
      rewrite (sendTransportCall_eq _ _ _ Hc).
      assert (Hfresh := counted_unallocated _ HC (length (heap w)) (le_n _)).
      destruct HC, Hinv.
      unfold attempts, calls_of, queued, in_flight in *.
      destruct_world w.
      split; unfold attempts, calls_of, queued, in_flight; simpl;
        intros r; rewrite filter_call_snoc; simpl;
        (destruct (decide (Some (length hp) = Some r)) as [[= <-]|Hne];
         [rewrite Hfresh|rewrite app_nil_r]).
      * rewrite length_app. simpl. lia.
      * rewrite length_app. simpl. intros Hr. apply counted_unallocated0. lia.
      * intros c' [Hc'%lookup_lt_Some|[_ Hc']]%lookup_app_Some; [lia|].
        rewrite Nat.sub_diag in Hc'. simplify_eq/=. lia.
      * intros c' [Hc'|[? Hc']]%lookup_app_Some; [eauto|].
        apply list_lookup_singleton_Some in Hc' as [Hr _].
        exfalso. apply Hne. f_equal. lia.
      * intros c' _ Hq%inv_queue_bounds0. lia.
      * intros c' [Hc'|[? Hc']]%lookup_app_Some; [eauto|].
        apply list_lookup_singleton_Some in Hc' as [Hr _].
        exfalso. apply Hne. f_equal. lia.
      * intros c' [Hc'%lookup_lt_Some|[_ Hc']]%lookup_app_Some; [lia|].
        rewrite Nat.sub_diag in Hc'. by simplify_eq/=.
      * intros c' [Hc'|[? Hc']]%lookup_app_Some [pid Hp].
        -- rewrite lookup_insert in Hp. case_decide; simplify_eq. eauto.
        -- apply list_lookup_singleton_Some in Hc' as [Hr _].
           exfalso. apply Hne. f_equal. lia.
      * intros c' i [Hc'%lookup_lt_Some|[_ Hc']]%lookup_app_Some; [lia|].
        rewrite Nat.sub_diag in Hc'. simplify_eq/=.
        by intros ->%list_elem_of_singleton.
      * intros c' i [Hc'|[? Hc']]%lookup_app_Some; [eauto|].
        apply list_lookup_singleton_Some in Hc' as [Hr _].
        exfalso. apply Hne. f_equal. lia.
    + destruct HC. unfold attempts, calls_of, queued, in_flight in *.
      destruct_world w.
      split; unfold attempts, calls_of, queued, in_flight; simpl;
        intros r; rewrite filter_call_snoc; simpl; rewrite app_nil_r; eauto.
  - unfold settles. destruct (reactions w !! pid) as [ref|] eqn:Hp; [|done].
    destruct (Inv_unreact pid ref w Hinv Hp) as (Hinv1 & Hlt & Hdead & Hns).
    assert (HC1 := Counted_unreact pid w HC).
    destruct s as [v|r]; [by apply Counted_fire|].
    unfold onRejected.
    destruct (heap _ !! ref) as [c|] eqn:Hc; [|done].
    destruct (no_status r); [|by apply Counted_fire].
    destruct (methods _ !! method c); [|done].
    destruct (_ <? _)%Z; [|by apply Counted_fire].
    apply (Counted_addFailedCall ref c); try done.
    + simpl in Hc.
      change (attempts ref w = (retryCount c + 1)%Z).
      eapply counted_in_flight; [done..|]. by exists pid.
    + unfold live in Hdead. tauto.
  - unfold expires. case_match; [|done].
    unfold retryFailedCalls.
    set (w1 := with_this _ (expired h w)).
    assert (H1 : Inv w1 ∧ Counted w1).
    { split.
      - clear -Hinv H. subst w1.
        destruct Hinv. unfold pending, live, in_flight, queued in *.
        apply bool_decide_eq_true in H.
        destruct_world w.
        split; simpl; unfold live, in_flight, queued; simpl; try done.
        destruct tm as [h'|]; simpl in *;
          [|by rewrite inv_timer0 in H; set_solver].
        destruct ts as [|[h1 d] [|??]]; simplify_eq/=.
        apply list_elem_of_singleton in H as ->.
        rewrite filter_cons_False; [done|]. simpl. by intros [].
      - destruct HC. subst w1.
        unfold attempts, calls_of, queued, in_flight in *. by destruct_world w. }
    generalize (length (failedCalls (this w1))). intros fuel.
    apply (retry_loop_ind (λ w', Inv w' ∧ Counted w')); [|done].
    intros w' ref rest Hq [Hinv' HC'].
    destruct (Inv_shift ref rest w' Hinv' Hq) as (? & ? & ? & ?).
    destruct (Counted_shift ref rest w' Hinv' HC' Hq) as (? & ? & c & ? & ?).
    split; [by apply Inv_sendTransportCall|by eapply Counted_sendTransportCall].
  - destruct HC. unfold dispose, attempts, calls_of, queued, in_flight in *.
    destruct_world w.
    destruct tm; simpl;
      (split; unfold attempts, calls_of, queued, in_flight; simpl; try done);
      intros ?? _ ?; set_solver.
Qed.

Lemma Counted_run es w : Inv w → Counted w → Counted (run w es).
Proof.
  revert w. induction es as [|e es IH]; intros w Hinv HC; simpl; [done|].
  apply IH; [by apply Inv_step|by apply Counted_step].
Qed.

(** X5. Over a transport whose earlier calls were not made by
    [sendTransportCall], in every state of every run and for every
    [transportCall]: the wrapped transport has been called for it at least
    once and at most [retryLimit + 1] times, [retryCount] or
    [retryCount + 1] times, exactly [retryCount] times while it is queued and
    [retryCount + 1] times while it is in flight. *)
Theorem transport_calls_bounded t options o es ref c :
  TransportRetry (Some t) options = inr o →
  Forall (λ i, inv_call i = None) (invocations t) →
  heap (run (boot o) es) !! ref = Some c →
  let w := run (boot o) es in
  ∃ p, methods (this w) !! method c = Some p ∧
       (1 ≤ attempts ref w ≤ retryLimit p + 1)%Z ∧
       (retryCount c ≤ attempts ref w ≤ retryCount c + 1)%Z ∧
       (queued w ref → attempts ref w = retryCount c) ∧
       (in_flight w ref → attempts ref w = (retryCount c + 1)%Z).
Proof.
  intros Ho Hlog Hc. cbv zeta.
  assert (Hinv : Inv (run (boot o) es)) by by eapply Inv_run, Inv_boot.
  assert (HC : Counted (run (boot o) es)).
  { apply Counted_run; [by eapply Inv_boot|by eapply Counted_boot]. }
  destruct (inv_budget _ Hinv _ _ Hc) as (p & Hp & Hb).
  destruct (counted_range _ HC _ _ Hc) as [H1 Hr].
  exists p. split_and!; try done; try lia.
  - by apply counted_queued.
  - by apply counted_in_flight.
Qed.

Lemma transport_calls_bounded_witness :
  let w := run (boot example_object)
             [Call "delete" []; Settle 0 (Rejected Null); Expire 1] in
  let c := {| method := "delete"; args := []; retryCount := 1 |} in
  heap w !! 0 = Some c ∧
  ∃ p, methods (this w) !! method c = Some p ∧
       (1 ≤ attempts 0 w ≤ retryLimit p + 1)%Z.
Proof.
  cbv zeta.
  set (es := [Call "delete" []; Settle 0 (Rejected Null); Expire 1]).
  set (c := {| method := "delete"; args := []; retryCount := 1 |}).
  assert (Hc : heap (run (boot example_object) es) !! 0 = Some c)
    by (vm_compute; reflexivity).
  destruct (transport_calls_bounded example_transport (Some example_options)
              example_object es 0 c example_constructed (Forall_nil_2 _) Hc)
    as (p & Hp & Hb & _).
  split; [exact Hc|]. exists p. split; [exact Hp|exact Hb].
Defined.

(** A [transportCall] keeps its verb and its arguments. *)
Lemma run_keeps_call es : ∀ w ref c,
  heap w !! ref = Some c →
  ∃ c', heap (run w es) !! ref = Some c' ∧
        method c' = method c ∧ args c' = args c.
Proof.
  induction es as [|e es IH]; intros w ref c Hc; simpl; [by eauto|].
  destruct (step_retryCount w e ref c Hc) as [Hc'|(_ & _ & _ & Hc' & _)];
    destruct (IH _ _ _ Hc') as (c' & ? & ? & ?); eauto.
Qed.

(** X12. Every call of the wrapped transport made for a managed call, the
    first attempt and every retry in every later run, has the verb and the
    arguments the caller gave. *)
Theorem every_attempt_repeats_the_call t options o es0 m a ref w' es i :
  TransportRetry (Some t) options = inr o →
  Forall (λ i, inv_call i = None) (invocations t) →
  transportMethod m a (run (boot o) es0) = (NewPromise ref, w') →
  i ∈ calls_of ref (run w' es) →
  i = {| inv_method := m; inv_args := a; inv_call := Some ref |}.
Proof.
  intros Ho Hlog Hcall Hi.
  assert (Hinv : Inv (run (boot o) es0)) by by eapply Inv_run, Inv_boot.
  assert (HC : Counted (run (boot o) es0)).
  { apply Counted_run; [by eapply Inv_boot|by eapply Counted_boot]. }
  assert (Hw' : w' = step (run (boot o) es0) (Call m a)).
  { simpl. by rewrite Hcall. }
  assert (Hc : heap w' !! ref =
               Some {| method := m; args := a; retryCount := 0 |}).
  { revert Hcall. unfold transportMethod.
    destruct (managed _ m); [|by destruct (invoke m a None _)].
    intros [= <- <-].
    destruct (sendTransportCall_frame (length (heap (run (boot o) es0)))
      (with_heap (heap (run (boot o) es0) ++
         [{| method := m; args := a; retryCount := 0 |}]) (run (boot o) es0)))
      as (-> & _). simpl.
    by rewrite lookup_app_r, Nat.sub_diag. }
  destruct (run_keeps_call es _ _ _ Hc) as (c' & Hc' & Hm & Ha).
  assert (HC' : Counted (run w' es)).
  { subst w'. apply Counted_run; [by apply Inv_step|by apply Counted_step]. }
  rewrite (counted_same _ HC' _ _ _ Hc' Hi).
  unfold invocation_of. by rewrite Hm, Ha.
Qed.

Lemma every_attempt_repeats_the_call_witness :
  let w' := (transportMethod "delete" [Str "/orders/1"] (boot example_object)).2 in
  let i := {| inv_method := "delete"; inv_args := [Str "/orders/1"];
              inv_call := Some 0 |} in
  calls_of 0 (run w' [Settle 0 (Rejected Null); Expire 1]) = [i; i].
Proof.
  cbv zeta.
  set (w' := (transportMethod "delete" [Str "/orders/1"] (boot example_object)).2).
  set (es := [Settle 0 (Rejected Null); Expire 1]).
  assert (Hcalls : ∃ i j, calls_of 0 (run w' es) = [i; j])
    by (vm_compute; eauto).
  destruct Hcalls as (i & j & Hcalls).
  assert (Hcall : transportMethod "delete" [Str "/orders/1"]
                    (run (boot example_object) []) = (NewPromise 0, w'))
    by (vm_compute; reflexivity).
  assert (Hi : i ∈ calls_of 0 (run w' es)) by (rewrite Hcalls; by left).
  assert (Hj : j ∈ calls_of 0 (run w' es))
    by (rewrite Hcalls; right; by left).
  rewrite Hcalls.
  rewrite (every_attempt_repeats_the_call example_transport
             (Some example_options) example_object [] _ _ 0 w' es i
             example_constructed (Forall_nil_2 _) Hcall Hi).
  rewrite (every_attempt_repeats_the_call example_transport
             (Some example_options) example_object [] _ _ 0 w' es j
             example_constructed (Forall_nil_2 _) Hcall Hj).
  reflexivity.
Defined.

(** ** Configuration and timeouts *)

(** A step keeps [retryTimeout] and sets timeouts with that delay only. *)
Lemma step_retryTimeout w e :
  retryTimeout (this (step w e)) = retryTimeout (this w).
Proof.
  destruct e as [m a|pid s|h|]; simpl.
  - unfold transportMethod. case_match; simpl; [|done].
    by destruct (sendTransportCall_frame (length (heap w))
      (with_heap (heap w ++ [{| method := m; args := a; retryCount := 0 |}]) w))
      as (_ & _ & _ & _ & _ & -> & _).
  - unfold settles. destruct (reactions w !! pid) as [r|]; [|done].
    destruct s; [done|]. unfold onRejected. simpl.
    destruct (heap w !! r) as [c|] eqn:Hc; [|done].
    destruct (no_status _); [|done].
    destruct (methods (this w) !! method c); [|done].
    destruct (_ <? _)%Z; [|done].
    unfold addFailedCall. simpl. rewrite Hc.
    by destruct (retryTimer (this w)).
  - unfold expires, retryFailedCalls. case_match; [|done].
    by destruct (retry_loop_frame
      (length (failedCalls (this (with_this (with_retryTimer None
         (this (expired h w))) (expired h w)))))
      (with_this (with_retryTimer None (this (expired h w))) (expired h w)))
      as (_ & _ & _ & _ & _ & -> & _).
  - unfold dispose. by case_match.
Qed.

Lemma step_timers w e x :
  x ∈ timers (step w e) → x ∈ timers w ∨ x.2 = retryTimeout (this w).
Proof.
  destruct e as [m a|pid s|h|]; simpl.
  - unfold transportMethod. case_match; simpl; [|by left].
    destruct (sendTransportCall_frame (length (heap w))
      (with_heap (heap w ++ [{| method := m; args := a; retryCount := 0 |}]) w))
      as (_ & _ & -> & _). by left.
  - unfold settles. destruct (reactions w !! pid) as [r|]; [|by left].
    destruct s; [by left|]. unfold onRejected. simpl.
    destruct (heap w !! r) as [c|] eqn:Hc; [|by left].
    destruct (no_status _); [|by left].
    destruct (methods (this w) !! method c); [|by left].
    destruct (_ <? _)%Z; [|by left].
    unfold addFailedCall. simpl. rewrite Hc.
    destruct (retryTimer (this w)); simpl; [by left|].
    intros [?|Hx%list_elem_of_singleton]%elem_of_app; [by left|].
    subst x. by right.
  - unfold expires, retryFailedCalls. case_match; [|by left].
    destruct (retry_loop_frame
      (length (failedCalls (this (with_this (with_retryTimer None
         (this (expired h w))) (expired h w)))))
      (with_this (with_retryTimer None (this (expired h w))) (expired h w)))
      as (_ & _ & -> & _).
    simpl. intros [_ ?]%list_elem_of_filter. by left.
  - unfold dispose. case_match; by left.
Qed.

(** X8. [retryTimeout] and [methods] never change after construction,
    [retryTimeout] is not negative, and every pending timeout was set with
    [retryTimeout] as its delay. *)
Theorem timeouts_use_the_configuration t options o es :
  TransportRetry (Some t) options = inr o →
  let w := run (boot o) es in
  retryTimeout (this w) = retryTimeout o ∧
  methods (this w) = methods o ∧
  (0 ≤ retryTimeout o)%Z ∧
  ∀ h d, (h, d) ∈ timers w → d = retryTimeout o.
Proof.
  intros Ho. cbv zeta.
  assert (Hpos : (0 ≤ retryTimeout o)%Z).
  { injection Ho as <-. simpl.
    destruct (options ≫= opt_retryTimeout) as [n|]; [|done].
    destruct (Z.ltb_spec 0 n); lia. }
  assert (Hrun : ∀ w,
    retryTimeout (this w) = retryTimeout o → methods (this w) = methods o →
    (∀ h d, (h, d) ∈ timers w → d = retryTimeout o) →
    retryTimeout (this (run w es)) = retryTimeout o ∧
    methods (this (run w es)) = methods o ∧
    ∀ h d, (h, d) ∈ timers (run w es) → d = retryTimeout o).
  { induction es as [|e es IH]; intros w Hrt Hms Hts; simpl; [done|].
    apply IH.
    - by rewrite step_retryTimeout.
    - by rewrite step_methods.
    - intros h d [?|Hd]%step_timers; [eauto|]. simpl in Hd. congruence. }
  destruct (Hrun (boot o)) as (? & ? & ?); try done.
  intros h d ?%elem_of_nil. done.
Qed.

Lemma timeouts_use_the_configuration_witness :
  let w := run (boot example_object)
             [Call "delete" []; Settle 0 (Rejected Null)] in
  retryTimeout (this w) = 100%Z ∧ methods (this w) = methods example_object.
Proof.
  cbv zeta.
  destruct (timeouts_use_the_configuration example_transport
              (Some example_options) example_object
              [Call "delete" []; Settle 0 (Rejected Null)]
              example_constructed) as (Hrt & Hms & _).
  split; [exact Hrt|exact Hms].
Defined.

(** X14. Two calls in flight that fail without a status, with budget
    left, while the queue is empty and no timer is active: the first
    failure starts the only timeout, with delay [retryTimeout], both calls
    wait in the queue in the order of their failures, the wrapped transport
    is not called before the timeout expires, and when it expires both
    calls are sent again in that order, leaving the queue and the timer
    clear. *)
Theorem two_failures_share_one_timeout w p1 p2 r1 r2 c1 c2 l1 l2 f1 f2 :
  reachable w →
  failedCalls (this w) = [] → retryTimer (this w) = None →
  p1 ≠ p2 →
  reactions w !! p1 = Some r1 → reactions w !! p2 = Some r2 →
  heap w !! r1 = Some c1 → heap w !! r2 = Some c2 →
  methods (this w) !! method c1 = Some l1 →
  methods (this w) !! method c2 = Some l2 →
  (retryCount c1 < retryLimit l1)%Z → (retryCount c2 < retryLimit l2)%Z →
  lacks_status f1 → lacks_status f2 →
  let w1 := run w [Settle p1 (Rejected f1); Settle p2 (Rejected f2)] in
  let w2 := step w1 (Expire (next_timer w)) in
  failedCalls (this w1) = [r1; r2] ∧
  timers w1 = [(next_timer w, retryTimeout (this w))] ∧
  invocations (transport (this w1)) = invocations (transport (this w)) ∧
  invocations (transport (this w2)) =
    invocations (transport (this w)) ++
      [invocation_of r1 c1; invocation_of r2 c2] ∧
  failedCalls (this w2) = [] ∧ timers w2 = [] ∧
  retryTimer (this w2) = None.
Proof.
  intros Hinv%reachable_Inv Hq Ht Hne Hp1 Hp2 Hc1 Hc2 Hm1 Hm2
    Hb1%Z.ltb_lt Hb2%Z.ltb_lt Hf1%lacks_status_no_status
    Hf2%lacks_status_no_status.
  assert (Hr : r1 ≠ r2).
  { intros ->. apply Hne. by eapply inv_reaction_inj. }
  assert (Hts : timers w = []).
  { destruct Hinv as [_ _ _ _ _ _ _ _ _ Hts _]. rewrite Ht in Hts.
    by destruct (timers w). }
  assert (Hlt1 : r1 < length (heap w)) by by eapply lookup_lt_Some.
  assert (Hlt2 : r2 < length (heap w)) by by eapply lookup_lt_Some.
  assert (H1 :
    run w [Settle p1 (Rejected f1); Settle p2 (Rejected f2)] =
    {| this := with_retryTimer (Some (next_timer w))
                 (with_failedCalls [r1; r2] (this w));
       heap := <[r2 := retried c2]> (<[r1 := retried c1]> (heap w));
       reactions := base.delete p2 (base.delete p1 (reactions w));
       timers := [(next_timer w, retryTimeout (this w))];
       next_timer := Pos.succ (next_timer w); settled := settled w |}).
  { clear Hinv. destruct_world w. subst q tm ts.
    unfold settles at 2. cbn. rewrite Hp1. unfold onRejected, addFailedCall.
    cbn. rewrite Hc1, Hf1. cbn. rewrite Hm1, Hb1. cbn.
    unfold settles. cbn. rewrite lookup_delete_ne by done. rewrite Hp2.
    unfold onRejected, addFailedCall. cbn.
    rewrite list_lookup_insert_ne by done. rewrite Hc2, Hf2. cbn.
    rewrite Hm2, Hb2. reflexivity. }
  cbv zeta. rewrite H1. cbn.
  split_and!; try done.
  all: unfold expires, pending; cbn;
    rewrite bool_decide_eq_true_2 by (by left);
    unfold retryFailedCalls, expired; cbn;
    rewrite decide_False by (by intros []); cbn;
    unfold sendTransportCall; cbn;
    rewrite list_lookup_insert_ne by done;
    rewrite list_lookup_insert_eq by done; cbn;
    rewrite list_lookup_insert_eq by (by rewrite length_insert); cbn;
    try done.
  by rewrite <- app_assoc.
Qed.

Lemma two_failures_share_one_timeout_witness :
  let w := run (boot example_object)
             [Call "delete" [Str "a"]; Call "delete" [Str "b"]] in
  failedCalls (this (run w [Settle 1 (Rejected Null); Settle 0 (Rejected Null)])) =
    [1; 0] ∧
  timers (run w [Settle 1 (Rejected Null); Settle 0 (Rejected Null)]) =
    [(next_timer w, retryTimeout (this w))].
Proof.
  cbv zeta.
  set (es := [Call "delete" [Str "a"]; Call "delete" [Str "b"]]).
  set (ca := {| method := "delete"; args := [Str "a"]; retryCount := 0 |}).
  set (cb := {| method := "delete"; args := [Str "b"]; retryCount := 0 |}).
  assert (Hw := example_reachable es).
  assert (Hq : failedCalls (this (run (boot example_object) es)) = [])
    by (vm_compute; reflexivity).
  assert (Ht : retryTimer (this (run (boot example_object) es)) = None)
    by (vm_compute; reflexivity).
  assert (Hp1 : reactions (run (boot example_object) es) !! 1 = Some 1)
    by (vm_compute; reflexivity).
  assert (Hp0 : reactions (run (boot example_object) es) !! 0 = Some 0)
    by (vm_compute; reflexivity).
  assert (Hc1 : heap (run (boot example_object) es) !! 1 = Some cb)
    by (vm_compute; reflexivity).
  assert (Hc0 : heap (run (boot example_object) es) !! 0 = Some ca)
    by (vm_compute; reflexivity).
  assert (Hm1 : methods (this (run (boot example_object) es)) !! method cb =
                Some {| retryLimit := 2 |}) by (vm_compute; reflexivity).
  assert (Hm0 : methods (this (run (boot example_object) es)) !! method ca =
                Some {| retryLimit := 2 |}) by (vm_compute; reflexivity).
  assert (Hb : (0 < 2)%Z) by lia.
  assert (Hne : 1 ≠ 0) by lia.
  destruct (two_failures_share_one_timeout _ 1 0 1 0 cb ca _ _ Null Null
              Hw Hq Ht Hne Hp1 Hp0 Hc1 Hc0 Hm1 Hm0 Hb Hb I I)
    as (Hq' & Hts & _).
  split; [exact Hq'|exact Hts].
Defined.

(** ** The rejection handler *)

(** What the handler takes for a status. *)
Lemma no_status_false_iff r : no_status r = false ↔ truthy_status r.
Proof.
  unfold no_status, and_get, truthy_status. split.
  - destruct r as [| |[]|n| |s|props]; simpl; try done.
    + by destruct (Z.eqb_spec n 0) as [->|].
    + by destruct (String.eqb_spec s "") as [->|].
    + destruct (own props "status") as [v|] eqn:Hv; simpl; [|done].
      intros Ht%negb_false_iff. eauto.
  - intros (props & v & -> & Hv & Ht). simpl. rewrite Hv. simpl.
    by rewrite Ht.
Qed.

(** X9. What the rejection handler does with a failure of a call in
    flight.  The failure is final when the descriptor is an object whose own
    [status] is truthy or [retryCount] has reached [retryLimit]: [reject] is
    called and queue and heap are unchanged.  Otherwise no continuation is
    called and the call is appended to the queue with [retryCount]
    incremented.  A descriptor has a status for the handler exactly when it
    is an object whose own [status] is truthy; truthy primitives
    (non-empty strings, non-zero numbers, [true]) have none. *)
Theorem failure_is_final_iff w pid ref c p r :
  reactions w !! pid = Some ref → heap w !! ref = Some c →
  methods (this w) !! method c = Some p →
  let w' := step w (Settle pid (Rejected r)) in
  let final := truthy_status r ∨ (retryLimit p ≤ retryCount c)%Z in
  (final →
     settled w' = settled w ++ [(ref, Reject (CallObject ref))] ∧
     failedCalls (this w') = failedCalls (this w) ∧ heap w' = heap w) ∧
  (¬ final →
     settled w' = settled w ∧
     failedCalls (this w') = failedCalls (this w) ++ [ref] ∧
     heap w' = <[ref := retried c]> (heap w)) ∧
  (no_status r = false ↔ truthy_status r).
Proof.
  intros Hp Hc Hm. cbv zeta.
  split_and!; [| |apply no_status_false_iff].
  - intros Hfinal. simpl. unfold settles, onRejected. rewrite Hp. simpl.
    rewrite Hc, Hm.
    destruct (no_status r) eqn:Hr; [|done].
    destruct Hfinal as [Hs%no_status_false_iff|Hb%Z.ltb_ge]; [congruence|].
    by rewrite Hb.
  - intros Hfinal. simpl. unfold settles, onRejected. rewrite Hp. simpl.
    rewrite Hc, Hm.
    destruct (no_status r) eqn:Hr;
      [|exfalso; apply Hfinal; left; by apply no_status_false_iff].
    destruct (Z.ltb_spec (retryCount c) (retryLimit p));
      [|exfalso; apply Hfinal; by right].
    unfold addFailedCall. simpl. rewrite Hc.
    by destruct (retryTimer (this w)).
Qed.

Lemma failure_is_final_iff_witness :
  let w := run (boot example_object) [Call "delete" []] in
  truthy_status status_500 ∧
  settled (step w (Settle 0 (Rejected status_500))) =
    settled w ++ [(0, Reject (CallObject 0))].
Proof.
  cbv zeta.
  set (w := run (boot example_object) [Call "delete" []]).
  set (c := {| method := "delete"; args := []; retryCount := 0 |}).
  assert (Hp : reactions w !! 0 = Some 0) by (vm_compute; reflexivity).
  assert (Hc : heap w !! 0 = Some c) by (vm_compute; reflexivity).
  assert (Hm : methods (this w) !! method c = Some {| retryLimit := 2 |})
    by (vm_compute; reflexivity).
  assert (Hs : truthy_status status_500).
  { exists [("status", Num 500)], (Num 500). by split_and!. }
  destruct (failure_is_final_iff w 0 0 c _ status_500 Hp Hc Hm)
    as (Hfinal & _).
  destruct (Hfinal (or_introl Hs)) as (Hst & _).
  split; [exact Hs|exact Hst].
Defined.

(** ** Retry, then success *)

(** Runs compose. *)
Lemma run_app w es1 es2 : run w (es1 ++ es2) = run (run w es1) es2.
Proof. apply foldl_app. Qed.

(** [rounds]: every failure with budget left is answered by one more call
    of the wrapped transport. *)
Lemma rounds_from rs : ∀ w pid ref c p,
  reactions w !! pid = Some ref → heap w !! ref = Some c →
  methods (this w) !! method c = Some p →
  failedCalls (this w) = [] → retryTimer (this w) = None → timers w = [] →
  length (invocations (transport (this w))) = S pid →
  (retryCount c + Z.of_nat (length rs) ≤ retryLimit p)%Z →
  Forall (λ r, no_status r = true) rs →
  let w' := run w (rounds pid (next_timer w) rs) in
  reactions w' !! (pid + length rs) = Some ref ∧
  heap w' !! ref =
    Some {| method := method c; args := args c;
            retryCount := retryCount c + Z.of_nat (length rs) |} ∧
  invocations (transport (this w')) =
    invocations (transport (this w)) ++
      replicate (length rs) (invocation_of ref c) ∧
  settled w' = settled w.
Proof.
  induction rs as [|r rs IH];
    intros w pid ref c p Hp Hc Hm Hq Ht Hts Hlog Hle Hrs; cbv zeta.
  - simpl. rewrite Nat.add_0_r, Z.add_0_r, app_nil_r.
    split_and!; try done. rewrite Hc. by destruct c.
  - apply Forall_cons in Hrs as [Hr Hrs].
    assert (Hb : (retryCount c < retryLimit p)%Z) by (simpl in Hle; lia).
    change (rounds pid (next_timer w) (r :: rs)) with
      ([Settle pid (Rejected r); Expire (next_timer w)] ++
       rounds (S pid) (Pos.succ (next_timer w)) rs).
    unfold run. rewrite foldl_app. change (foldl step) with run.
    assert (Hw1 := retry_round w pid ref c p r Hp Hc Hm Hb Hr Hq Ht Hts).
    set (w1 := run w [Settle pid (Rejected r); Expire (next_timer w)]) in *.
    assert (Hlt : ref < length (heap w)) by by eapply lookup_lt_Some.
    assert (Hnt : Pos.succ (next_timer w) = next_timer w1) by by rewrite Hw1.
    rewrite Hnt.
    destruct (IH w1 (S pid) ref (retried c) p) as (Hp' & Hc' & Hlog' & Hst');
      try done.
    + rewrite Hw1. simpl. rewrite <- Hlog. apply lookup_insert_eq.
    + rewrite Hw1. simpl. by apply list_lookup_insert_eq.
    + by rewrite Hw1.
    + by rewrite Hw1.
    + by rewrite Hw1.
    + by rewrite Hw1.
    + rewrite Hw1. simpl. rewrite length_app. simpl. lia.
    + simpl in *. lia.
    + split_and!.
      * rewrite <- Hp'. f_equal. simpl. lia.
      * rewrite Hc'. simpl. do 2 f_equal. lia.
      * rewrite Hlog'. rewrite Hw1 at 1. simpl. by rewrite <- app_assoc.
      * rewrite Hst'. by rewrite Hw1.
Qed.

(** X6. A managed call whose first [k <= retryLimit] attempts fail without
    a status and whose next attempt succeeds with [v]: the wrapped transport
    is called [k + 1] times with the caller's arguments, [retryCount] ends
    at [k], and [resolve v] is the only continuation ever called for the
    call, whatever happens afterwards. *)
Theorem retry_then_success t options o m p a rs v :
  TransportRetry (Some t) options = inr o →
  methods o !! m = Some p → (0 < retryLimit p)%Z →
  (Z.of_nat (length rs) ≤ retryLimit p)%Z →
  Forall lacks_status rs →
  let first := length (invocations t) in
  let attempt := {| inv_method := m; inv_args := a; inv_call := Some 0 |} in
  let w := run (boot o)
             (Call m a :: rounds first 1 rs ++
              [Settle (first + length rs) (Fulfilled v)]) in
  invocations (transport (this w)) =
    invocations t ++ replicate (S (length rs)) attempt ∧
  settled w = [(0, Resolve v)] ∧
  heap w !! 0 =
    Some {| method := m; args := a; retryCount := Z.of_nat (length rs) |} ∧
  ∀ es,
    continuations_of 0 (run w es) = [Resolve v] ∧
    calls_of 0 (run w es) = calls_of 0 w ∧
    ¬ in_flight (run w es) 0 ∧ ¬ queued (run w es) 0.
Proof.
  intros Ho Hm Hp Hlen Hrs. cbv zeta.
  change (run ?w (Call m a :: ?es)) with (run (step w (Call m a)) es).
  rewrite run_app.
  set (w0 := step (boot o) (Call m a)).
  assert (Hinv0 : Inv w0) by (apply Inv_step; by eapply Inv_boot).
  injection Ho as <-. simpl in Hm.
  set (c := {| method := m; args := a; retryCount := 0 |}).
  assert (Hw0 : w0 =
    {| this := {| retryTimeout := retryTimeout (this w0);
                  methods := methods (this w0);
                  transport :=
                    {| invocations := invocations t ++ [invocation_of 0 c];
                       disposals := disposals t |};
                  failedCalls := []; retryTimer := None |};
       heap := [c];
       reactions := <[length (invocations t) := 0]> ∅;
       timers := []; next_timer := 1; settled := [] |}).
  { unfold w0. simpl. unfold transportMethod, managed. simpl.
    rewrite Hm. by apply Z.ltb_lt in Hp as ->. }
  assert (Hms : methods (this w0) = default ∅ (options ≫= opt_methods)).
  { unfold w0. by rewrite step_methods. }
  assert (Hnt : next_timer w0 = 1%positive) by by rewrite Hw0.
  destruct (rounds_from rs w0 (length (invocations t)) 0 c p)
    as (Hp' & Hc' & Hlog & Hst); try done.
  - rewrite Hw0. simpl. apply lookup_insert_eq.
  - by rewrite Hw0.
  - by rewrite Hms.
  - by rewrite Hw0.
  - by rewrite Hw0.
  - by rewrite Hw0.
  - rewrite Hw0. simpl. rewrite length_app. simpl. lia.
  - eapply Forall_impl; [done|]. apply lacks_status_no_status.
  - rewrite Hnt in *.
    set (w1 := run w0 (rounds (length (invocations t)) 1 rs)) in *.
    assert (Hinv1 : Inv w1) by by apply Inv_run.
    change (run w1 [Settle (length (invocations t) + length rs) (Fulfilled v)])
      with (settles (length (invocations t) + length rs) (Fulfilled v) w1).
    unfold settles. rewrite Hp'.
    destruct (Inv_unreact _ _ _ Hinv1 Hp') as (Hinv2 & Hlt & Hdead & Hns).
    split_and!.
    + simpl. rewrite Hlog. rewrite Hw0 at 1. simpl.
      by rewrite <- app_assoc.
    + simpl. rewrite Hst. by rewrite Hw0.
    + simpl. by rewrite Hc'.
    + intros es.
      destruct (final_continuation 0 (Resolve v) _ Hinv2 Hlt Hdead Hns es)
        as (? & ? & ? & ? & ?).
      done.
Qed.

Lemma retry_then_success_witness :
  let w := run (boot example_object)
             (Call "delete" [Str "/orders/1"] ::
              rounds 0 1 [Null; Undefined] ++
              [Settle 2 (Fulfilled (Str "deleted"))]) in
  length (invocations (transport (this w))) = 3 ∧
  settled w = [(0, Resolve (Str "deleted"))].
Proof.
  destruct (retry_then_success example_transport (Some example_options)
              example_object "delete" {| retryLimit := 2 |}
              [Str "/orders/1"] [Null; Undefined] (Str "deleted"))
    as (Hlog & Hst & _).
  - exact example_constructed.
  - vm_compute. reflexivity.
  - simpl. lia.
  - simpl. lia.
  - repeat constructor.
  - split; [exact (f_equal length Hlog)|exact Hst].
Defined.

(** ** Verb methods *)

(** X11. A call of a managed verb allocates a [transportCall] with
    [retryCount = 0], calls the wrapped transport at once, with the caller's
    arguments, registers the reaction on the promise of that call (which had
    none), and returns a new promise for which no continuation has been
    called; queue, timer and the continuations called so far are
    unchanged. *)
Theorem managed_verb_is_sent_at_once w m a p :
  reachable w → methods (this w) !! m = Some p → (0 < retryLimit p)%Z →
  let ref := length (heap w) in
  let pid := length (invocations (transport (this w))) in
  ∃ w',
    transportMethod m a w = (NewPromise ref, w') ∧
    heap w' = heap w ++ [{| method := m; args := a; retryCount := 0 |}] ∧
    invocations (transport (this w')) =
      invocations (transport (this w)) ++
        [{| inv_method := m; inv_args := a; inv_call := Some ref |}] ∧
    reactions w' = <[pid := ref]> (reactions w) ∧
    failedCalls (this w') = failedCalls (this w) ∧
    retryTimer (this w') = retryTimer (this w) ∧
    timers w' = timers w ∧
    settled w' = settled w ∧
    continuations_of ref w' = [] ∧ in_flight w' ref ∧
    reactions w !! pid = None.
Proof.
  intros Hinv%reachable_Inv Hm Hp%Z.ltb_lt. cbv zeta.
  unfold transportMethod, managed. rewrite Hm, Hp.
  eexists. split; [reflexivity|].
  unfold sendTransportCall. simpl.
  rewrite lookup_app_r, Nat.sub_diag by done. simpl.
  split_and!; try done.
  - apply continuations_of_fresh. intros Hin%(inv_settled_bounds _ Hinv). lia.
  - eexists. apply lookup_insert_eq.
  - destruct (reactions w !! _) as [r|] eqn:Hr; [|done].
    apply (inv_reaction_bounds _ Hinv) in Hr. lia.
Qed.

Lemma managed_verb_is_sent_at_once_witness :
  methods (this (boot example_object)) !! "delete" = Some {| retryLimit := 2 |} ∧
  (transportMethod "delete" [Str "/orders/1"] (boot example_object)).1 =
    NewPromise 0.
Proof.
  assert (Hw := example_reachable []).
  assert (Hm : methods (this (run (boot example_object) [])) !! "delete" =
               Some {| retryLimit := 2 |}) by (vm_compute; reflexivity).
  assert (Hp : (0 < retryLimit {| retryLimit := 2 |})%Z) by (simpl; lia).
  destruct (managed_verb_is_sent_at_once _ "delete" [Str "/orders/1"] _
              Hw Hm Hp) as (w' & Heq & _).
  split; [exact Hm|]. exact (f_equal fst Heq).
Defined.

(** Reactions are only ever registered on the promise of the call just
    made. *)
Lemma unreacted_step w e pid :
  pid < length (invocations (transport (this w))) → reactions w !! pid = None →
  pid < length (invocations (transport (this (step w e)))) ∧
  reactions (step w e) !! pid = None.
Proof.
  intros Hlt Hp.
  assert (Hsend : ∀ r w0,
    pid < length (invocations (transport (this w0))) →
    reactions w0 !! pid = None →
    pid < length (invocations (transport (this (sendTransportCall r w0)))) ∧
    reactions (sendTransportCall r w0) !! pid = None).
  { intros r w0 Hlt0 Hp0. unfold sendTransportCall.
    destruct (heap w0 !! r); [|done]. simpl.
    rewrite length_app, lookup_insert_ne by lia. split; [lia|done]. }
  destruct e as [m a|p s|h|]; simpl.
  - unfold transportMethod. case_match; simpl.
    + by apply Hsend.
    + rewrite length_app. split; [lia|done].
  - unfold settles. destruct (reactions w !! p) as [r|] eqn:Hr; [|done].
    assert (Hp' : base.delete p (reactions w) !! pid = None).
    { apply lookup_delete_None. by right. }
    destruct s; [done|]. unfold onRejected. simpl.
    destruct (heap w !! r) as [c|] eqn:Hc; [|done].
    destruct (no_status _); [|done].
    destruct (methods (this w) !! method c); [|done].
    destruct (_ <? _)%Z; [|done].
    unfold addFailedCall. simpl. rewrite Hc.
    by destruct (retryTimer (this w)).
  - unfold expires. case_match; [|done]. unfold retryFailedCalls.
    apply (retry_loop_ind (λ w',
      pid < length (invocations (transport (this w'))) ∧
      reactions w' !! pid = None)); [|done].
    intros w' r rest _ [??]. by apply Hsend.
  - unfold dispose. by case_match.
Qed.

(** X7. The promise an unmanaged verb returns is the wrapped
    transport's own: in no later state does the object hold a reaction on
    it, and its settling changes nothing in the object. *)
Theorem direct_promise_is_never_intercepted w m a es s :
  reachable w → managed (this w) m = false →
  let pid := length (invocations (transport (this w))) in
  let w' := (transportMethod m a w).2 in
  (transportMethod m a w).1 = TransportPromise pid ∧
  reactions (run w' es) !! pid = None ∧
  step (run w' es) (Settle pid s) = run w' es.
Proof.
  intros Hinv%reachable_Inv Hm. cbv zeta.
  unfold transportMethod. rewrite Hm. simpl.
  split; [done|].
  assert (Hnone : reactions w !! length (invocations (transport (this w))) = None).
  { destruct (reactions w !! _) as [r|] eqn:Hr; [|done].
    apply (inv_reaction_bounds _ Hinv) in Hr. lia. }
  set (pid := length (invocations (transport (this w)))) in *.
  set (w' := with_this _ w).
  assert (Hrun : ∀ w0,
    pid < length (invocations (transport (this w0))) →
    reactions w0 !! pid = None →
    reactions (run w0 es) !! pid = None).
  { induction es as [|e es IH]; intros w0 Hlt Hp; simpl; [done|].
    destruct (unreacted_step w0 e pid Hlt Hp). by apply IH. }
  assert (Hp : reactions (run w' es) !! pid = None).
  { apply Hrun; [|done]. unfold w'. simpl. rewrite length_app. simpl.
    unfold pid. lia. }
  split; [done|]. unfold settles. by rewrite Hp.
Qed.

Lemma direct_promise_is_never_intercepted_witness :
  let w' := (transportMethod "get" [Str "/ports"] (boot example_object)).2 in
  managed (this (boot example_object)) "get" = false ∧
  reactions (run w' [Call "delete" []; Settle 0 (Fulfilled Null)]) !! 0 = None.
Proof.
  cbv zeta.
  assert (Hw := example_reachable []).
  assert (Hm : managed (this (run (boot example_object) [])) "get" = false)
    by (vm_compute; reflexivity).
  destruct (direct_promise_is_never_intercepted _ "get" [Str "/ports"]
              [Call "delete" []; Settle 0 (Fulfilled Null)] (Fulfilled Null)
              Hw Hm) as (_ & Hr & _).
  split; [exact Hm|exact Hr].
Defined.
